(** * Record indexing and lookup engine: id_query_binsort.c and coord_query_naive.c

    A shallow embedding of the Sorted Index ([mk_indexed], [free_indexed],
    [lookup_indexed]) and of the Coordinate Scanner ([mk_naive],
    [free_naive], [lookup_naive]), together with the properties of the
    specification that concern them.

    C objects are modelled as follows.
    - [int] values are mathematical integers; every arithmetic operation is
      checked against the range of a 32-bit [int], and leaving the range is
      undefined behaviour ([Undef]).
    - [int64_t] identifiers are only ever compared, so they are integers.
    - [double] values are IEEE 754 binary64 numbers ([spec_float] with
      precision 53 and maximal exponent 1024), each operation rounded to
      nearest-even on its own.
    - [malloc] and [free] act on a heap of typed blocks; whether a request
      is granted is decided by an oracle carried in the memory state.
    - A pointer into the record array is the index of the record it
      designates; the record array itself is read-only. *)

From Stdlib Require Import ZArith Lia.
From Stdlib Require Import Floats.SpecFloat.
From stdpp Require Import base tactics option numbers strings list sorting gmap.

Local Open Scope Z_scope.

(** ** Outcomes and the memory monad *)

(** The outcome of running a piece of C code: a value, undefined behaviour
    (arithmetic overflow, a read of an indeterminate value, an access outside
    an object, an invalid [free]), or exhaustion of the iteration budget that
    the model gives to a [while] loop. *)
Inductive res (A : Type) : Type :=
  | Val (a : A)
  | Undef
  | OutOfFuel.
Arguments Val {A} a.
Arguments Undef {A}.
Arguments OutOfFuel {A}.

(** Pointers: the null pointer, or a pointer to the object named [t]. *)
Inductive ptr (T : Type) : Type :=
  | NULL
  | Ptr (t : T).
Arguments NULL {T}.
Arguments Ptr {T} t.

(** Heap addresses name the blocks handed out by [malloc]. *)
Abbreviation addr := positive (only parsing).

(** A pointer to a [struct record]: the index of the record in the record
    array it belongs to. *)
Abbreviation record_ptr := (ptr Z) (only parsing).

Section Memory.
Context {cell : Type}.

(** The memory state: the live heap blocks with their contents, and the
    answers the allocator will give to the coming [malloc] calls ([true]:
    the request is granted).  An exhausted oracle grants nothing. *)
Record mem : Type := Mem {
  blocks : gmap addr cell;
  oracle : list bool
}.

Definition M (A : Type) : Type := mem → res (A * mem).

Definition ret {A} (a : A) : M A := λ m, Val (a, m).

Definition bind {A B} (f : A → M B) (c : M A) : M B := λ m,
  match c m with
  | Val (a, m') => f a m'
  | Undef => Undef
  | OutOfFuel => OutOfFuel
  end.

Definition undef {A} : M A := λ _, Undef.
Definition out_of_fuel {A} : M A := λ _, OutOfFuel.

(** [malloc]: a granted request returns a fresh block holding [c] (the
    indeterminate initial contents); a refused one returns [NULL] and
    leaves the heap as it was. *)
Definition malloc (c : cell) : M (ptr addr) := λ m,
  match oracle m with
  | true :: o =>
      let a := fresh (dom (blocks m)) in
      Val (Ptr a, Mem (<[a := c]> (blocks m)) o)
  | false :: o => Val (NULL, Mem (blocks m) o)
  | [] => Val (NULL, m)
  end.

(** [free]: releasing [NULL] does nothing; releasing a live block removes
    it; anything else is undefined. *)
Definition free (p : ptr addr) : M unit := λ m,
  match p with
  | NULL => Val (tt, m)
  | Ptr a =>
      match blocks m !! a with
      | Some _ => Val (tt, Mem (delete a (blocks m)) (oracle m))
      | None => Undef
      end
  end.

Definition load (p : ptr addr) : M cell := λ m,
  match p with
  | NULL => Undef
  | Ptr a =>
      match blocks m !! a with
      | Some c => Val (c, m)
      | None => Undef
      end
  end.

Definition store (p : ptr addr) (c : cell) : M unit := λ m,
  match p with
  | NULL => Undef
  | Ptr a =>
      match blocks m !! a with
      | Some _ => Val (tt, Mem (<[a := c]> (blocks m)) (oracle m))
      | None => Undef
      end
  end.

(** An indeterminate value must not be read. *)
Definition initialised {A} (o : option A) : M A :=
  match o with
  | Some a => ret a
  | None => undef
  end.

(** *** The type [int] *)

Definition INT_MIN : Z := -2147483648.
Definition INT_MAX : Z := 2147483647.

Definition in_int (z : Z) : bool := (INT_MIN <=? z) && (z <=? INT_MAX).

Definition int_val (z : Z) : M Z := if in_int z then ret z else undef.

Definition int_add (a b : Z) : M Z := int_val (a + b).
Definition int_sub (a b : Z) : M Z := int_val (a - b).
(** Division truncates towards zero; dividing by zero is undefined. *)
Definition int_div (a b : Z) : M Z :=
  if b =? 0 then undef else int_val (a ÷ b).

(** [a[i]] for an array [a]: subscripts outside the array are undefined. *)
Definition index {A} (l : list A) (i : Z) : M A :=
  if (0 <=? i) && (i <? Z.of_nat (length l)) then
    initialised (l !! Z.to_nat i)
  else undef.

(** [rs + i], that is [&rs[i]], for a pointer [rs] into the record array. *)
Definition ptr_add (p : record_ptr) (i : Z) : M record_ptr :=
  match p with
  | NULL => undef
  | Ptr b => ret (Ptr (b + i))
  end.

(** [*p] for a pointer [p] into the array [l]. *)
Definition deref {A} (l : list A) (p : record_ptr) : M A :=
  match p with
  | NULL => undef
  | Ptr b => index l b
  end.
End Memory.
Arguments mem cell : clear implicits.
Arguments M cell A : clear implicits.

Global Instance M_ret {cell} : MRet (M cell) := @ret cell.
Global Instance M_bind {cell} : MBind (M cell) := @bind cell.

(** ** The record array *)

(** IEEE 754 binary64, the format of a C [double]. *)
Abbreviation double := spec_float (only parsing).

Module F64.
Definition prec : Z := 53.
Definition emax : Z := 1024.
Definition sub : double → double → double := SFsub prec emax.
Definition mul : double → double → double := SFmul prec emax.
Definition add : double → double → double := SFadd prec emax.
Definition ltb : double → double → bool := SFltb.
Definition leb : double → double → bool := SFleb.
Definition is_nan (x : double) : bool :=
  match x with S754_nan => true | _ => false end.
Definition is_finite (x : double) : bool :=
  match x with S754_zero _ | S754_finite _ _ _ => true | _ => false end.
(** A number whose sign bit is clear. *)
Definition is_pos (x : double) : bool :=
  match x with
  | S754_zero false | S754_infinity false | S754_finite false _ _ => true
  | _ => false
  end.
End F64.

Module record_h.
(** Modelled from the spec: [struct record] of record.h, which is not part
    of the sources at hand.  A record has a 64-bit signed identifier, a
    longitude and a latitude in floating point, and a display name; the
    lookup code reads the fields [osm_id], [lon] and [lat]. *)
Record record : Type := {
  osm_id : Z;
  lon : double;
  lat : double;
  name : string
}.
End record_h.
Abbreviation record := record_h.record (only parsing).

(** ** id_query_binsort.c: the Sorted Index *)

Module Binsort.

Record index_record : Type := {
  osm_id : Z;
  record : record_ptr
}.

(** The objects this program keeps on the heap: a [struct indexed_data]
    (each field indeterminate until assigned) and an array of
    [struct index_record] (each element indeterminate until assigned). *)
Inductive cell : Type :=
  | indexed_data (irs : option (ptr addr)) (n : option Z)
  | index_records (a : list (option index_record)).

(** [data->irs] and [data->n], read and written. *)
Definition get_irs (data : ptr addr) : M cell (ptr addr) :=
  c ← load data;
  match c with
  | indexed_data irs _ => initialised irs
  | _ => undef
  end.

Definition set_irs (data : ptr addr) (v : ptr addr) : M cell unit :=
  c ← load data;
  match c with
  | indexed_data _ n => store data (indexed_data (Some v) n)
  | _ => undef
  end.

Definition get_n (data : ptr addr) : M cell Z :=
  c ← load data;
  match c with
  | indexed_data _ n => initialised n
  | _ => undef
  end.

Definition set_n (data : ptr addr) (v : Z) : M cell unit :=
  c ← load data;
  match c with
  | indexed_data irs _ => store data (indexed_data irs (Some v))
  | _ => undef
  end.

(** [data->irs[i]], read and written.  The two field assignments of one
    loop iteration of [mk_indexed] are one element write. *)
Definition read_irs (data : ptr addr) (i : Z) : M cell index_record :=
  a ← get_irs data;
  c ← load a;
  match c with
  | index_records l => e ← index l i; initialised e
  | _ => undef
  end.

Definition write_irs (data : ptr addr) (i : Z) (e : index_record)
  : M cell unit :=
  a ← get_irs data;
  c ← load a;
  match c with
  | index_records l =>
      if (0 <=? i) && (i <? Z.of_nat (length l)) then
        store a (index_records (<[Z.to_nat i := Some e]> l))
      else undef
  | _ => undef
  end.

(** [malloc((size_t)n * sizeof(struct index_record))].  A negative [n]
    converts to a size above [PTRDIFF_MAX], which no allocator grants.  A
    request of size zero is decided by the oracle like any other: an
    allocator that answers it with [NULL] counts as refusing it, which is
    how [mk_indexed] reads that answer. *)
Definition malloc_irs (n : Z) : M cell (ptr addr) :=
  if n <? 0 then ret NULL
  else malloc (index_records (replicate (Z.to_nat n) None)).

Definition compare_index_records (ia ib : index_record) : Z :=
  if osm_id ia <? osm_id ib then -1
  else if osm_id ia >? osm_id ib then 1
  else 0.

Section WithQsort.
(** The C library's [qsort], applied to an array of [index_record]. *)
Variable qsort :
  (index_record → index_record → Z) → list index_record → list index_record.

(** The record array, read-only. *)
Variable recs : list record_h.record.

(** [qsort(data->irs, (size_t)n, sizeof(struct index_record), cmp)]. *)
Definition qsort_irs (data : ptr addr) (n : Z)
    (cmp : index_record → index_record → Z) : M cell unit :=
  a ← get_irs data;
  c ← load a;
  match c with
  | index_records l =>
      if n =? Z.of_nat (length l) then
        match mapM id l with
        | Some es => store a (index_records (Some <$> qsort cmp es))
        | None => undef
        end
      else undef
  | _ => undef
  end.

(** [for (int i = 0; i < n; i++) { ... }] of [mk_indexed]. *)
Fixpoint mk_indexed_loop (fuel : nat) (rs : record_ptr) (n : Z)
    (data : ptr addr) (i : Z) : M cell unit :=
  match fuel with
  | O => out_of_fuel
  | S fuel' =>
      if i <? n then
        p ← ptr_add rs i;
        r ← deref recs p;
        write_irs data i
          {| osm_id := record_h.osm_id r; record := p |} ;;
        i' ← int_add i 1;
        mk_indexed_loop fuel' rs n data i'
      else ret tt
  end.

Definition mk_indexed (rs : record_ptr) (n : Z) : M cell (ptr addr) :=
  data ← malloc (indexed_data None None);
  match data with
  | NULL => ret NULL
  | Ptr _ =>
      irs ← malloc_irs n;
      set_irs data irs ;;
      irs ← get_irs data;
      match irs with
      | NULL => free data ;; ret NULL
      | Ptr _ =>
          mk_indexed_loop (S (Z.to_nat n)) rs n data 0 ;;
          set_n data n ;;
          qsort_irs data n compare_index_records ;;
          ret data
      end
  end.
End WithQsort.

Definition free_indexed (data : ptr addr) : M cell unit :=
  irs ← get_irs data;
  free irs ;;
  free data.

(** What one iteration of the search loop decides. *)
Inductive step : Type :=
  | Continue (left right : Z)
  | Return (r : record_ptr).

(** The test and the body of [while (left <= right) { ... }]. *)
Definition lookup_step (data : ptr addr) (needle left right : Z)
  : M cell step :=
  if left <=? right then
    d ← int_sub right left;
    h ← int_div d 2;
    mid ← int_add left h;
    e ← read_irs data mid;
    if osm_id e =? needle then ret (Return (record e))
    else if osm_id e <? needle then
      left' ← int_add mid 1;
      ret (Continue left' right)
    else
      right' ← int_sub mid 1;
      ret (Continue left right')
  else ret (Return NULL).

Fixpoint lookup_loop (fuel : nat) (data : ptr addr) (needle left right : Z)
  : M cell record_ptr :=
  match fuel with
  | O => out_of_fuel
  | S fuel' =>
      s ← lookup_step data needle left right;
      match s with
      | Return r => ret r
      | Continue left' right' => lookup_loop fuel' data needle left' right'
      end
  end.

(** The loop is given [n + 1] iterations, which a built index never
    exhausts (see [lookup_loop_spec]). *)
Definition lookup_indexed (data : ptr addr) (needle : Z)
  : M cell record_ptr :=
  n ← get_n data;
  right ← int_sub n 1;
  lookup_loop (S (Z.to_nat n)) data needle 0 right.

End Binsort.

(** ** coord_query_naive.c: the Coordinate Scanner *)

Module CoordNaive.

(** The only heap object of this program: a [struct naive_data], each
    field indeterminate until assigned. *)
Inductive cell : Type :=
  | naive_data (rs : option record_ptr) (n : option Z).

Definition get_rs (data : ptr addr) : M cell record_ptr :=
  c ← load data;
  match c with naive_data rs _ => initialised rs end.

Definition set_rs (data : ptr addr) (v : record_ptr) : M cell unit :=
  c ← load data;
  match c with naive_data _ n => store data (naive_data (Some v) n) end.

Definition get_n (data : ptr addr) : M cell Z :=
  c ← load data;
  match c with naive_data _ n => initialised n end.

Definition set_n (data : ptr addr) (v : Z) : M cell unit :=
  c ← load data;
  match c with naive_data rs _ => store data (naive_data rs (Some v)) end.

Definition mk_naive (rs : record_ptr) (n : Z) : M cell (ptr addr) :=
  data ← malloc (naive_data None None);
  match data with
  | NULL => ret NULL
  | Ptr _ =>
      set_rs data rs ;;
      set_n data n ;;
      ret data
  end.

Definition free_naive (data : ptr addr) : M cell unit := free data.

Section WithRecords.
(** The record array, read-only. *)
Variable recs : list record.

(** [for (int i = 1; i < data->n; i++) { ... }] of [lookup_naive]. *)
Fixpoint lookup_naive_loop (fuel : nat) (data : ptr addr)
    (lon lat : double) (closest : record_ptr) (min_dist_sq : double)
    (i : Z) : M cell record_ptr :=
  match fuel with
  | O => out_of_fuel
  | S fuel' =>
      n ← get_n data;
      if i <? n then
        rs ← get_rs data;
        p ← ptr_add rs i;
        r ← deref recs p;
        let dx := F64.sub (record_h.lon r) lon in
        let dy := F64.sub (record_h.lat r) lat in
        let dist_sq := F64.add (F64.mul dx dx) (F64.mul dy dy) in
        let '(min_dist_sq', closest') :=
          if F64.ltb dist_sq min_dist_sq then (dist_sq, p)
          else (min_dist_sq, closest) in
        i' ← int_add i 1;
        lookup_naive_loop fuel' data lon lat closest' min_dist_sq' i'
      else ret closest
  end.

(** The loop is given [n + 1] iterations, which a built handle never
    exhausts (see [lookup_naive_loop_spec]). *)
Definition lookup_naive (data : ptr addr) (lon lat : double)
  : M cell record_ptr :=
  n ← get_n data;
  if n =? 0 then ret NULL
  else
    rs ← get_rs data;
    closest ← ptr_add rs 0;
    r0 ← deref recs closest;
    let min_dist_sq :=
      F64.add
        (F64.mul (F64.sub (record_h.lon r0) lon)
                 (F64.sub (record_h.lon r0) lon))
        (F64.mul (F64.sub (record_h.lat r0) lat)
                 (F64.sub (record_h.lat r0) lat)) in
    lookup_naive_loop (S (Z.to_nat n)) data lon lat closest min_dist_sq 1.
End WithRecords.

End CoordNaive.

(** ** The Linear Scanner and the Compact Index

    Their sources (id_query_naive.c and id_query_indexed.c) are not at hand;
    both are modelled from their description. *)

Module Linear.

(** Modelled from the spec: the heap object of the Linear Scanner, whose
    source id_query_naive.c is missing.  The handle holds a reference to
    the record sequence and its length. *)
Inductive cell : Type :=
  | linear_data (rs : option record_ptr) (n : option Z).

Definition get_rs (data : ptr addr) : M cell record_ptr :=
  c ← load data;
  match c with linear_data rs _ => initialised rs end.

Definition get_n (data : ptr addr) : M cell Z :=
  c ← load data;
  match c with linear_data _ n => initialised n end.

(** Modelled from the spec: [build] of the Linear Scanner (id_query_naive.c
    is missing).  It stores a reference to the record sequence and its
    length, copies nothing, and fails only when the handle itself cannot
    be allocated. *)
Definition build (rs : record_ptr) (n : Z) : M cell (ptr addr) :=
  data ← malloc (linear_data None None);
  match data with
  | NULL => ret NULL
  | Ptr _ => store data (linear_data (Some rs) (Some n)) ;; ret data
  end.

Section WithRecords.
Variable recs : list record.

(** Modelled from the spec: the scan of the Linear Scanner's [lookup]
    (id_query_naive.c is missing): records are visited in sequence
    order and the first one whose identifier equals the query is
    returned; exhausting the sequence reports not found. *)
Fixpoint lookup_loop (fuel : nat) (rs : record_ptr) (n needle i : Z)
  : M cell record_ptr :=
  match fuel with
  | O => out_of_fuel
  | S fuel' =>
      if i <? n then
        p ← ptr_add rs i;
        r ← deref recs p;
        if record_h.osm_id r =? needle then ret p
        else
          i' ← int_add i 1;
          lookup_loop fuel' rs n needle i'
      else ret NULL
  end.

(** Modelled from the spec: [lookup] of the Linear Scanner
    (id_query_naive.c is missing). *)
Definition lookup (data : ptr addr) (needle : Z) : M cell record_ptr :=
  n ← get_n data;
  rs ← get_rs data;
  lookup_loop (S (Z.to_nat n)) rs n needle 0.
End WithRecords.

End Linear.

Module Compact.
Import Binsort.

Section WithRecords.
Variable recs : list record_h.record.

(** Modelled from the spec: [build] of the Compact Index
    (id_query_indexed.c is missing).  It allocates one index entry per
    record, holding the record's identifier and a reference to the
    record, in store order, and does not sort; when the entry array
    cannot be allocated the handle is released and the build fails. *)
Definition build (rs : record_ptr) (n : Z) : M cell (ptr addr) :=
  data ← malloc (indexed_data None None);
  match data with
  | NULL => ret NULL
  | Ptr _ =>
      irs ← malloc_irs n;
      match irs with
      | NULL => free data ;; ret NULL
      | Ptr _ =>
          set_irs data irs ;;
          mk_indexed_loop recs (S (Z.to_nat n)) rs n data 0 ;;
          set_n data n ;;
          ret data
      end
  end.
End WithRecords.

(** Modelled from the spec: the scan of the Compact Index's [lookup]
    (id_query_indexed.c is missing): the entry array is scanned in order
    comparing identifiers, and the record reference of the first matching
    entry is returned; exhausting the array reports not found. *)
Fixpoint lookup_loop (fuel : nat) (data : ptr addr) (n needle i : Z)
  : M cell record_ptr :=
  match fuel with
  | O => out_of_fuel
  | S fuel' =>
      if i <? n then
        e ← read_irs data i;
        if osm_id e =? needle then ret (Binsort.record e)
        else
          i' ← int_add i 1;
          lookup_loop fuel' data n needle i'
      else ret NULL
  end.

(** Modelled from the spec: [lookup] of the Compact Index
    (id_query_indexed.c is missing). *)
Definition lookup (data : ptr addr) (needle : Z) : M cell record_ptr :=
  n ← get_n data;
  lookup_loop (S (Z.to_nat n)) data n needle 0.

End Compact.

(** ** Vocabulary of the properties *)

(** The allocator grants the next [k] requests. *)
Definition grants {cell} (k : nat) (m : mem cell) : Prop :=
  take k (oracle m) = replicate k true.

(** [p] is what a first-match scan of [recs] for the identifier [k]
    returns: a reference to the first record with that identifier, or
    [NULL] when no record has it. *)
Definition first_match (recs : list record) (k : Z) (p : record_ptr) : Prop :=
  match p with
  | Ptr z =>
      ∃ i r, z = Z.of_nat i ∧ recs !! i = Some r ∧ record_h.osm_id r = k ∧
             ∀ j r', (j < i)%nat → recs !! j = Some r' →
                     record_h.osm_id r' ≠ k
  | NULL => ∀ r, r ∈ recs → record_h.osm_id r ≠ k
  end.

Global Instance grants_dec {cell} k (m : mem cell) : Decision (grants k m).
Proof. unfold grants. apply _. Defined.

Module BinsortSpec.
Import Binsort.

(** The order that [compare_index_records] decides. *)
Definition id_le (a b : index_record) : Prop := osm_id a ≤ osm_id b.

(** The entry built for the record at position [i]. *)
Definition entry (i : nat) (r : record_h.record) : index_record :=
  {| osm_id := record_h.osm_id r; record := Ptr (Z.of_nat i) |}.

(** One entry per record, in store order. *)
Definition entries (recs : list record_h.record) : list index_record :=
  imap entry recs.

(** [data] is the handle of an index whose entry array holds [es]. *)
Definition is_index (m : mem cell) (data : ptr addr)
    (es : list index_record) : Prop :=
  ∃ d a,
    data = Ptr d ∧
    blocks m !! d
      = Some (indexed_data (Some (Ptr a)) (Some (Z.of_nat (length es)))) ∧
    blocks m !! a = Some (index_records (Some <$> es)).

(** What the contract of [qsort] promises for the comparison function
    [cmp]: the result is a rearrangement of the input in which no element
    compares greater than its successor. *)
Definition qsort_contract
    (qsort : (index_record → index_record → Z) →
             list index_record → list index_record)
    (cmp : index_record → index_record → Z) : Prop :=
  ∀ l, qsort cmp l ≡ₚ l ∧ Sorted (λ a b, cmp a b ≤ 0) (qsort cmp l).

(** What one iteration of the search decides, read off the entry
    sequence. *)
Definition step_of (es : list index_record) (needle left right : Z)
  : option step :=
  if left <=? right then
    let mid := left + (right - left) ÷ 2 in
    e ← es !! Z.to_nat mid;
    Some (if osm_id e =? needle then Return (record e)
          else if osm_id e <? needle then Continue (mid + 1) right
          else Continue left (mid - 1))
  else Some (Return NULL).

(** What the search returns: the record of some entry with the wanted
    identifier, or [NULL] when no entry has it. *)
Definition found (es : list index_record) (needle : Z) (p : record_ptr)
  : Prop :=
  (∃ e, e ∈ es ∧ osm_id e = needle ∧ p = record e) ∨
  (p = NULL ∧ ∀ e, e ∈ es → osm_id e ≠ needle).

(** A sequence of queries on one handle. *)
Fixpoint lookup_all (data : ptr addr) (ks : list Z)
  : M cell (list record_ptr) :=
  match ks with
  | [] => ret []
  | k :: ks' =>
      p ← lookup_indexed data k;
      ps ← lookup_all data ks';
      ret (p :: ps)
  end.

(** The canonical iterative binary search of the specification, as a
    relation between a closed range [[low, high]] of positions of the entry
    sequence and the answer: an empty range answers [NULL]; otherwise the
    entry at [mid = low + (high - low) / 2] is inspected, its record is the
    answer when it has the wanted identifier, the search goes on in
    [[mid + 1, high]] when its identifier is smaller, and in
    [[low, mid - 1]] when it is greater. *)
Inductive canonical_search (es : list index_record) (needle : Z)
  : Z → Z → record_ptr → Prop :=
  | search_empty low high :
      high < low → canonical_search es needle low high NULL
  | search_found low high e :
      low ≤ high →
      es !! Z.to_nat (low + (high - low) ÷ 2) = Some e →
      osm_id e = needle →
      canonical_search es needle low high (record e)
  | search_upper low high e p :
      low ≤ high →
      es !! Z.to_nat (low + (high - low) ÷ 2) = Some e →
      osm_id e < needle →
      canonical_search es needle (low + (high - low) ÷ 2 + 1) high p →
      canonical_search es needle low high p
  | search_lower low high e p :
      low ≤ high →
      es !! Z.to_nat (low + (high - low) ÷ 2) = Some e →
      needle < osm_id e →
      canonical_search es needle low (low + (high - low) ÷ 2 - 1) p →
      canonical_search es needle low high p.

(** The ranges that the loop of [lookup_indexed] goes through on a handle
    with [n] entries: the initial range [[0, n - 1]], and every range that
    an iteration of the loop continues with. *)
Inductive reachable (data : ptr addr) (needle : Z) (m : mem cell) (n : Z)
  : Z → Z → Prop :=
  | reach_first : reachable data needle m n 0 (n - 1)
  | reach_next left right left' right' m' :
      reachable data needle m n left right →
      lookup_step data needle left right m
        = Val (Continue left' right', m') →
      reachable data needle m n left' right'.

(** Insertion sort, an instance of [qsort] for running examples. *)
Fixpoint insert (cmp : index_record → index_record → Z)
    (x : index_record) (l : list index_record) : list index_record :=
  match l with
  | [] => [x]
  | y :: l' => if cmp x y <=? 0 then x :: l else y :: insert cmp x l'
  end.

Definition isort (cmp : index_record → index_record → Z)
    (l : list index_record) : list index_record :=
  foldr (insert cmp) [] l.
End BinsortSpec.

Module LinearSpec.
Import Linear.

(** [data] is the handle of a Linear Scanner over the first [n] records. *)
Definition is_linear (m : mem cell) (data : ptr addr) (n : Z) : Prop :=
  ∃ d, data = Ptr d ∧
       blocks m !! d = Some (linear_data (Some (Ptr 0)) (Some n)).
End LinearSpec.

Module CoordNaiveSpec.
Import CoordNaive.

(** The squared planar distance the scanner computes for a record. *)
Definition dist_sq (lon lat : double) (r : record) : double :=
  let dx := F64.sub (record_h.lon r) lon in
  let dy := F64.sub (record_h.lat r) lat in
  F64.add (F64.mul dx dx) (F64.mul dy dy).

(** Among the first [i] records, the record at position [c] is a nearest
    one to the query point, and every record before it is strictly
    farther. *)
Definition nearest_upto (recs : list record) (lon lat : double)
    (i c : nat) : Prop :=
  ∃ rc, recs !! c = Some rc ∧
    (∀ j r, (j < i)%nat → recs !! j = Some r →
            F64.leb (dist_sq lon lat rc) (dist_sq lon lat r) = true) ∧
    (∀ j r, (j < c)%nat → recs !! j = Some r →
            F64.ltb (dist_sq lon lat rc) (dist_sq lon lat r) = true).

(** [data] is the handle of a scanner over the first [n] records. *)
Definition is_naive (m : mem cell) (data : ptr addr) (n : Z) : Prop :=
  ∃ d, data = Ptr d ∧
       blocks m !! d = Some (naive_data (Some (Ptr 0)) (Some n)).
End CoordNaiveSpec.

(** ** Example data *)

Module Examples.
(** [m * 2^e] as a [double]. *)
Definition dyadic (m e : Z) : double :=
  binary_normalize F64.prec F64.emax m e false.

Definition douglas_road : record :=
  {| record_h.osm_id := 45; record_h.lon := dyadic (-17) (-1);
     record_h.lat := dyadic 415 (-3); record_h.name := "Douglas Road" |}.
Definition main_street : record :=
  {| record_h.osm_id := 1337; record_h.lon := dyadic 3 0;
     record_h.lat := dyadic 4 0; record_h.name := "Main Street" |}.
Definition aarhus : record :=
  {| record_h.osm_id := 7; record_h.lon := dyadic 653 (-6);
     record_h.lat := dyadic 1797 (-5); record_h.name := "Aarhus" |}.

Definition places : list record := [main_street; douglas_road; aarhus].

(** A heap with nothing allocated whose allocator grants two requests. *)
Definition fresh_mem {cell} : mem cell := Mem ∅ [true; true].

(** The handle and the memory that a build leaves. *)
Definition handle_of {cell} (x : res (ptr addr * mem cell)) : ptr addr :=
  match x with Val (d, _) => d | _ => NULL end.
Definition mem_of {cell} (x : res (ptr addr * mem cell)) : mem cell :=
  match x with Val (_, m) => m | _ => Mem ∅ [] end.

Definition sorted_build : res (ptr addr * mem Binsort.cell) :=
  Binsort.mk_indexed BinsortSpec.isort places (Ptr 0) 3 fresh_mem.
Definition compact_build : res (ptr addr * mem Binsort.cell) :=
  Compact.build places (Ptr 0) 3 fresh_mem.
Definition linear_build : res (ptr addr * mem Linear.cell) :=
  Linear.build (Ptr 0) 3 fresh_mem.
Definition naive_build : res (ptr addr * mem CoordNaive.cell) :=
  CoordNaive.mk_naive (Ptr 0) 3 fresh_mem.
End Examples.

(** * Properties *)

(** ** The memory monad *)

Section MemoryFacts.
Context {cell : Type}.
Implicit Types (m : mem cell) (a : addr) (c : cell).

Lemma bind_unfold {A B} (f : A → M cell B) (x : M cell A) m :
  (x ≫= f) m =
    match x m with
    | Val (v, m') => f v m'
    | Undef => Undef
    | OutOfFuel => OutOfFuel
    end.
Proof. reflexivity. Qed.

Lemma bind_Val {A B} (f : A → M cell B) (x : M cell A) m v m' :
  x m = Val (v, m') → (x ≫= f) m = f v m'.
Proof. intros H. rewrite bind_unfold, H. reflexivity. Qed.

(** A computation that yields a value was given enough fuel in every loop
    it ran, and binding inverts. *)
Lemma bind_inv {A B} (f : A → M cell B) (x : M cell A) m w m'' :
  (x ≫= f) m = Val (w, m'') →
  ∃ v m', x m = Val (v, m') ∧ f v m' = Val (w, m'').
Proof.
  rewrite bind_unfold. destruct (x m) as [[v m']| |]; try discriminate.
  eauto.
Qed.

Lemma load_Val m a c :
  blocks m !! a = Some c → load (Ptr a) m = Val (c, m).
Proof. intros H. unfold load. rewrite H. reflexivity. Qed.

Lemma store_Val m a c0 c :
  blocks m !! a = Some c0 →
  store (Ptr a) c m = Val (tt, Mem (<[a := c]> (blocks m)) (oracle m)).
Proof. intros H. unfold store. rewrite H. reflexivity. Qed.

Lemma free_Val m a c0 :
  blocks m !! a = Some c0 →
  free (Ptr a) m = Val (tt, Mem (delete a (blocks m)) (oracle m)).
Proof. intros H. unfold free. rewrite H. reflexivity. Qed.

Lemma malloc_granted m c o :
  oracle m = true :: o →
  malloc c m =
    Val (Ptr (fresh (dom (blocks m))),
         Mem (<[fresh (dom (blocks m)) := c]> (blocks m)) o).
Proof. intros H. unfold malloc. rewrite H. reflexivity. Qed.

Lemma malloc_refused m c :
  ¬ grants 1 m →
  ∃ m', malloc c m = Val (NULL, m') ∧ blocks m' = blocks m.
Proof.
  unfold grants, malloc. destruct m as [b [|[] o]]; simpl; intros H.
  - eauto.
  - destruct H. by rewrite take_0.
  - eauto.
Qed.

Lemma fresh_block_unused m : blocks m !! fresh (dom (blocks m)) = None.
Proof. apply not_elem_of_dom, is_fresh. Qed.

Lemma in_int_true z : INT_MIN ≤ z ≤ INT_MAX → in_int z = true.
Proof.
  intros [? ?]. unfold in_int.
  apply andb_true_intro; split; by apply Z.leb_le.
Qed.

Lemma int_val_Val m z :
  INT_MIN ≤ z ≤ INT_MAX → int_val z m = Val (z, m).
Proof. intros H. unfold int_val. by rewrite in_int_true. Qed.

Lemma int_add_Val m x y :
  INT_MIN ≤ x + y ≤ INT_MAX → int_add x y m = Val (x + y, m).
Proof. apply int_val_Val. Qed.

Lemma int_sub_Val m x y :
  INT_MIN ≤ x - y ≤ INT_MAX → int_sub x y m = Val (x - y, m).
Proof. apply int_val_Val. Qed.

Lemma int_div2_Val m x :
  INT_MIN ≤ x ≤ INT_MAX → 0 ≤ x → int_div x 2 m = Val (x ÷ 2, m).
Proof.
  intros H H0. unfold int_div. simpl. apply int_val_Val.
  rewrite Z.quot_div_nonneg by lia.
  pose proof (Z.div_pos x 2). pose proof (Z.div_le_upper_bound x 2 x).
  unfold INT_MIN in *. lia.
Qed.

Lemma index_Val {A} m (l : list A) i x :
  0 ≤ i → l !! Z.to_nat i = Some x → index l i m = Val (x, m).
Proof.
  intros Hi Hx. unfold index.
  pose proof (lookup_lt_Some _ _ _ Hx) as Hlt.
  replace ((0 <=? i) && (i <? Z.of_nat (length l))) with true.
  - by rewrite Hx.
  - symmetry. apply andb_true_intro.
    split; [apply Z.leb_le | apply Z.ltb_lt]; lia.
Qed.

Lemma ptr_add_Val m b i : ptr_add (Ptr b) i m = Val (Ptr (b + i), m).
Proof. reflexivity. Qed.

Lemma deref_Val {A} m (l : list A) i x :
  0 ≤ i → l !! Z.to_nat i = Some x → deref l (Ptr i) m = Val (x, m).
Proof. apply index_Val. Qed.
End MemoryFacts.

(** ** The Sorted Index: field and element accesses *)

Module BinsortAccess.
Import Binsort BinsortSpec.
Implicit Types (m : mem cell) (d a : addr).

Lemma get_irs_Val m d p n :
  blocks m !! d = Some (indexed_data (Some p) n) →
  get_irs (Ptr d) m = Val (p, m).
Proof.
  intros H. unfold get_irs. by rewrite (bind_Val _ _ _ _ _ (load_Val _ _ _ H)).
Qed.

Lemma get_n_Val m d p n :
  blocks m !! d = Some (indexed_data p (Some n)) →
  get_n (Ptr d) m = Val (n, m).
Proof.
  intros H. unfold get_n. by rewrite (bind_Val _ _ _ _ _ (load_Val _ _ _ H)).
Qed.

Lemma set_irs_Val m d p n v :
  blocks m !! d = Some (indexed_data p n) →
  set_irs (Ptr d) v m =
    Val (tt, Mem (<[d := indexed_data (Some v) n]> (blocks m)) (oracle m)).
Proof.
  intros H. unfold set_irs.
  rewrite (bind_Val _ _ _ _ _ (load_Val _ _ _ H)). by eapply store_Val.
Qed.

Lemma set_n_Val m d p n v :
  blocks m !! d = Some (indexed_data p n) →
  set_n (Ptr d) v m =
    Val (tt, Mem (<[d := indexed_data p (Some v)]> (blocks m)) (oracle m)).
Proof.
  intros H. unfold set_n.
  rewrite (bind_Val _ _ _ _ _ (load_Val _ _ _ H)). by eapply store_Val.
Qed.

Lemma read_irs_Val m d a n l i e :
  blocks m !! d = Some (indexed_data (Some (Ptr a)) n) →
  blocks m !! a = Some (index_records l) →
  0 ≤ i → l !! Z.to_nat i = Some (Some e) →
  read_irs (Ptr d) i m = Val (e, m).
Proof.
  intros Hd Ha Hi He. unfold read_irs.
  rewrite (bind_Val _ _ _ _ _ (get_irs_Val _ _ _ _ Hd)).
  rewrite (bind_Val _ _ _ _ _ (load_Val _ _ _ Ha)).
  by rewrite (bind_Val _ _ _ _ _ (index_Val _ _ _ _ Hi He)).
Qed.

Lemma write_irs_Val m d a n l i e :
  blocks m !! d = Some (indexed_data (Some (Ptr a)) n) →
  blocks m !! a = Some (index_records l) →
  0 ≤ i < Z.of_nat (length l) →
  write_irs (Ptr d) i e m =
    Val (tt, Mem (<[a := index_records (<[Z.to_nat i := Some e]> l)]>
                    (blocks m)) (oracle m)).
Proof.
  intros Hd Ha Hi. unfold write_irs.
  rewrite (bind_Val _ _ _ _ _ (get_irs_Val _ _ _ _ Hd)).
  rewrite (bind_Val _ _ _ _ _ (load_Val _ _ _ Ha)).
  replace ((0 <=? i) && (i <? Z.of_nat (length l))) with true.
  - by eapply store_Val.
  - symmetry. apply andb_true_intro.
    split; [apply Z.leb_le | apply Z.ltb_lt]; lia.
Qed.

Lemma entries_length recs : length (entries recs) = length recs.
Proof. apply length_imap. Qed.

Lemma entries_lookup recs i :
  entries recs !! i = entry i <$> recs !! i.
Proof. apply list_lookup_imap. Qed.

(** The filling loop of [mk_indexed], started at position [k] with the
    first [k] entries in place, completes the entry array. *)
Lemma mk_indexed_loop_fills recs d a nn fuel : ∀ (k : nat) m,
  (k ≤ length recs)%nat →
  Z.of_nat (length recs) ≤ INT_MAX →
  (length recs - k < fuel)%nat →
  d ≠ a →
  blocks m !! d = Some (indexed_data (Some (Ptr a)) nn) →
  blocks m !! a =
    Some (index_records ((Some <$> take k (entries recs))
                         ++ replicate (length recs - k) None)) →
  mk_indexed_loop recs fuel (Ptr 0) (Z.of_nat (length recs)) (Ptr d)
    (Z.of_nat k) m =
    Val (tt, Mem (<[a := index_records (Some <$> entries recs)]> (blocks m))
                 (oracle m)).
Proof.
  induction fuel as [|fuel IH]; intros k m Hk Hmax Hfuel Hda Hd Ha; [lia|].
  simpl. destruct (Z.ltb_spec (Z.of_nat k) (Z.of_nat (length recs))) as [Hlt|Hge].
  - assert (Hk' : (k < length recs)%nat) by lia.
    destruct (lookup_lt_is_Some_2 recs k Hk') as [r Hr].
    rewrite (bind_Val _ (ret _) m _ m eq_refl).
    rewrite Z.add_0_l.
    assert (Hr' : recs !! Z.to_nat (Z.of_nat k) = Some r) by by rewrite Nat2Z.id.
    rewrite (bind_Val _ _ _ _ _ (deref_Val _ _ _ _ (Nat2Z.is_nonneg k) Hr')).
    erewrite bind_Val; cycle 1.
    { eapply write_irs_Val; [exact Hd | exact Ha |].
      rewrite length_app, length_fmap, length_take, entries_length, length_replicate.
      lia. }
    erewrite bind_Val; cycle 1.
    { apply int_add_Val. unfold INT_MIN. lia. }
    replace (Z.of_nat k + 1) with (Z.of_nat (S k)) by lia.
    rewrite (IH (S k)); simpl; try lia.
    + by rewrite insert_insert_eq.
    + by rewrite lookup_insert_ne.
    + rewrite lookup_insert_eq. do 2 f_equal.
      rewrite Nat2Z.id.
      replace (length recs - k)%nat with (S (length recs - S k)) by lia.
      rewrite insert_app_r_alt; rewrite length_fmap, length_take, entries_length;
        [|lia].
      replace (k - k `min` length recs)%nat with 0%nat by lia. simpl.
      rewrite (take_S_r _ _ (entry k r)) by (by rewrite entries_lookup, Hr).
      rewrite fmap_app. simpl. by rewrite <- app_assoc.
  - assert (k = length recs) by lia. subst k.
    unfold ret. do 2 f_equal. destruct m as [b o]; simpl in *. f_equal.
    symmetry. apply insert_id. rewrite Ha.
    rewrite Nat.sub_diag, <- entries_length, firstn_all. simpl.
    by rewrite app_nil_r.
Qed.
End BinsortAccess.

(** ** The Sorted Index: construction *)

Module BinsortBuild.
Import Binsort BinsortSpec BinsortAccess.
Implicit Types (m : mem cell) (d a : addr).

Lemma grants_cons {C} k (b : gmap addr C) o :
  grants (S k) (Mem b o) ↔ ∃ o', o = true :: o' ∧ grants k (Mem b o').
Proof.
  unfold grants. simpl. destruct o as [|x o]; simpl.
  - split; [discriminate | by intros (? & ? & ?)].
  - split.
    + intros [= -> H]. eauto.
    + intros (o' & [= -> ->] & H). by rewrite H.
Qed.

Lemma grants_2 m :
  grants 2 m ↔ ∃ o, oracle m = true :: true :: o.
Proof.
  destruct m as [b o]. rewrite grants_cons. split.
  - intros (o' & -> & H). apply grants_cons in H as (o'' & -> & _). eauto.
  - intros (o' & H). simpl in H. subst o. eexists; split; [done|].
    apply grants_cons. eexists; split; [done|]. reflexivity.
Qed.

Lemma mapM_id_Some {A} (l : list A) : mapM id (Some <$> l) = Some l.
Proof. by apply mapM_fmap_Some. Qed.

Section WithQsort.
Variable qsort :
  (index_record → index_record → Z) → list index_record → list index_record.
Variable recs : list record_h.record.

(** With both requests granted, [mk_indexed] returns a fresh handle whose
    entry array is the sorted sequence of the entries of [recs]; nothing
    else in the heap changes. *)
Lemma mk_indexed_builds m o :
  oracle m = true :: true :: o →
  Z.of_nat (length recs) ≤ INT_MAX →
  ∃ d a,
    d ≠ a ∧ blocks m !! d = None ∧ blocks m !! a = None ∧
    mk_indexed qsort recs (Ptr 0) (Z.of_nat (length recs)) m =
      Val (Ptr d,
           Mem (<[a := index_records
                         (Some <$> qsort compare_index_records (entries recs))]>
                  (<[d := indexed_data (Some (Ptr a))
                             (Some (Z.of_nat (length recs)))]> (blocks m)))
               o).
Proof.
  intros Ho Hmax.
  set (d := fresh (dom (blocks m))).
  set (b1 := <[d := indexed_data None None]> (blocks m)).
  set (a := fresh (dom b1)).
  assert (Hd : blocks m !! d = None) by apply fresh_block_unused.
  assert (Ha1 : b1 !! a = None) by apply (fresh_block_unused (Mem b1 [])).
  assert (Hda : d ≠ a).
  { intros <-. unfold b1 in Ha1. by rewrite lookup_insert_eq in Ha1. }
  assert (Ha : blocks m !! a = None).
  { unfold b1 in Ha1. by rewrite lookup_insert_ne in Ha1. }
  exists d, a. repeat split; try done.
  unfold mk_indexed.
  rewrite (bind_Val _ _ _ _ _ (malloc_granted _ _ _ Ho)). fold d b1.
  unfold malloc_irs.
  destruct (Z.ltb_spec (Z.of_nat (length recs)) 0) as [?|_]; [lia|].
  erewrite bind_Val; [|by apply malloc_granted]. cbn [blocks]. fold a.
  rewrite Nat2Z.id.
  erewrite bind_Val; cycle 1.
  { eapply set_irs_Val. cbn [blocks]. rewrite lookup_insert_ne by done.
    unfold b1. by rewrite lookup_insert_eq. }
  cbn [blocks oracle].
  erewrite bind_Val; cycle 1.
  { eapply get_irs_Val. cbn [blocks]. by rewrite lookup_insert_eq. }
  cbv beta iota.
  erewrite bind_Val; cycle 1.
  { eapply (mk_indexed_loop_fills recs d a None _ 0%nat); try done; try lia.
    - cbn [blocks]. by rewrite lookup_insert_eq.
    - cbn [blocks]. rewrite lookup_insert_ne, lookup_insert_eq by done.
      by rewrite take_0, Nat.sub_0_r. }
  cbn [blocks oracle].
  erewrite bind_Val; cycle 1.
  { eapply set_n_Val. cbn [blocks].
    rewrite lookup_insert_ne, lookup_insert_eq by done. done. }
  cbn [blocks oracle].
  erewrite bind_Val; cycle 1.
  { unfold qsort_irs.
    erewrite bind_Val; cycle 1.
    { eapply get_irs_Val. cbn [blocks]. by rewrite lookup_insert_eq. }
    erewrite bind_Val; cycle 1.
    { eapply load_Val. cbn [blocks].
      rewrite lookup_insert_ne, lookup_insert_eq by done. done. }
    cbv beta iota.
    rewrite length_fmap, entries_length, Z.eqb_refl, mapM_id_Some.
    eapply store_Val. cbn [blocks].
    rewrite lookup_insert_ne, lookup_insert_eq by done. done. }
  cbn [blocks oracle]. unfold ret. do 3 f_equal.
  apply map_eq. intros x. unfold b1.
  destruct (decide (x = a)) as [->|]; [by simplify_map_eq|].
  destruct (decide (x = d)) as [->|]; by simplify_map_eq.
Qed.

(** When a request is refused (or [n] is negative, so that the array
    request cannot be granted), [mk_indexed] returns [NULL] and the
    heap holds exactly the blocks it held before. *)
Lemma mk_indexed_fails rs n m :
  ¬ (grants 2 m ∧ 0 ≤ n) →
  ∃ m', mk_indexed qsort recs rs n m = Val (NULL, m') ∧
        blocks m' = blocks m.
Proof.
  intros Hfail. unfold mk_indexed.
  destruct m as [b [|[] o]].
  - eexists. split; [reflexivity|done].
  - rewrite (bind_Val _ _ _ _ _ (malloc_granted (Mem b (true :: o)) _ o eq_refl)).
    cbn [blocks].
    set (d := fresh (dom b)).
    assert (Hd : b !! d = None) by apply (fresh_block_unused (Mem b [])).
    assert (∃ o', malloc_irs n (Mem (<[d:=indexed_data None None]> b) o)
                  = Val (NULL, Mem (<[d:=indexed_data None None]> b) o'))
      as [o' Hirs].
    { unfold malloc_irs. destruct (Z.ltb_spec n 0) as [Hn|Hn].
      - eexists. reflexivity.
      - destruct o as [|[] o]; try (eexists; reflexivity).
        destruct Hfail. split; [|done]. reflexivity. }
    rewrite (bind_Val _ _ _ _ _ Hirs).
    erewrite bind_Val; cycle 1.
    { eapply set_irs_Val. cbn [blocks]. by rewrite lookup_insert_eq. }
    cbn [blocks oracle].
    erewrite bind_Val; cycle 1.
    { eapply get_irs_Val. cbn [blocks]. by rewrite lookup_insert_eq. }
    cbv beta iota.
    erewrite bind_Val; cycle 1.
    { eapply free_Val. cbn [blocks]. by rewrite lookup_insert_eq. }
    eexists. split; [reflexivity|]. cbn [blocks].
    apply map_eq. intros x.
    destruct (decide (x = d)) as [->|].
    + by rewrite lookup_delete_eq.
    + by rewrite lookup_delete_ne, !lookup_insert_ne.
  - eexists. split; [reflexivity|done].
Qed.
End WithQsort.
End BinsortBuild.

(** ** The Sorted Index: binary search *)

Module BinsortLookup.
Import Binsort BinsortSpec BinsortAccess.
Implicit Types (m : mem cell) (es : list index_record).

Lemma compare_le a b : compare_index_records a b ≤ 0 ↔ id_le a b.
Proof.
  unfold compare_index_records, id_le.
  destruct (Z.ltb_spec (osm_id a) (osm_id b)); [lia|].
  destruct (Z.gtb_spec (osm_id a) (osm_id b)); lia.
Qed.

Global Instance id_le_trans : Transitive id_le.
Proof. unfold id_le. intros a b c. lia. Qed.

Lemma sorted_lookup es i j x y :
  StronglySorted id_le es → (i ≤ j)%nat →
  es !! i = Some x → es !! j = Some y → osm_id x ≤ osm_id y.
Proof.
  intros Hs. revert i j. induction Hs as [|e es Hs IH Hall]; intros i j Hij Hx Hy.
  - by rewrite lookup_nil in Hx.
  - destruct i as [|i], j as [|j]; simpl in *; simplify_eq; try lia.
    + rewrite Forall_forall in Hall. apply Hall.
      apply list_elem_of_lookup. eauto.
    + apply (IH i j); [lia|done|done].
Qed.

(** The midpoint lies in the candidate range. *)
Lemma mid_bounds l r : l ≤ r → l ≤ l + (r - l) ÷ 2 ≤ r.
Proof.
  intros H. rewrite Z.quot_div_nonneg by lia.
  pose proof (Z.div_pos (r - l) 2).
  assert ((r - l) `div` 2 ≤ r - l) by (apply Z.div_le_upper_bound; lia).
  lia.
Qed.

(** One iteration of the loop, run on a built index, performs no undefined
    operation, leaves the memory alone and decides what [step_of] says. *)
Lemma lookup_step_eval m data es needle l r :
  is_index m data es →
  Z.of_nat (length es) ≤ INT_MAX →
  0 ≤ l → r < Z.of_nat (length es) →
  ∃ s, step_of es needle l r = Some s ∧
       lookup_step data needle l r m = Val (s, m).
Proof.
  intros (d & a & -> & Hd & Ha) Hmax Hl Hr.
  unfold step_of, lookup_step.
  destruct (Z.leb_spec l r) as [Hlr|Hlr]; [|eexists; split; reflexivity].
  pose proof (mid_bounds l r Hlr) as Hmid.
  set (mid := l + (r - l) ÷ 2) in *.
  destruct (lookup_lt_is_Some_2 es (Z.to_nat mid)) as [e He]; [lia|].
  rewrite He. simpl.
  erewrite bind_Val; [|apply int_sub_Val; unfold INT_MIN, INT_MAX in *; lia].
  erewrite bind_Val;
    [|apply int_div2_Val; unfold INT_MIN, INT_MAX in *; lia].
  erewrite bind_Val; [|apply int_add_Val; unfold INT_MIN, INT_MAX in *; lia].
  fold mid.
  erewrite bind_Val; cycle 1.
  { eapply read_irs_Val; [exact Hd|exact Ha|lia|].
    by rewrite list_lookup_fmap, He. }
  destruct (osm_id e =? needle); [eexists; split; reflexivity|].
  destruct (osm_id e <? needle).
  - erewrite bind_Val;
      [|apply int_add_Val; unfold INT_MIN, INT_MAX in *; lia].
    eexists; split; reflexivity.
  - erewrite bind_Val;
      [|apply int_sub_Val; unfold INT_MIN, INT_MAX in *; lia].
    eexists; split; reflexivity.
Qed.

(** A step that continues keeps the range inside the array and makes it
    strictly shorter. *)
Lemma step_of_shrinks es needle l r l' r' :
  step_of es needle l r = Some (Continue l' r') →
  l ≤ r ∧ l ≤ l' ∧ r' ≤ r ∧ l' ≤ r' + 1 ∧ r' - l' < r - l.
Proof.
  unfold step_of. destruct (Z.leb_spec l r) as [Hlr|Hlr]; [|discriminate].
  pose proof (mid_bounds l r Hlr).
  destruct (es !! _) as [e|]; simpl; [|discriminate].
  destruct (osm_id e =? needle); [discriminate|].
  destruct (osm_id e <? needle); intros [= <- <-]; lia.
Qed.

(** More fuel never changes a result. *)
Lemma lookup_loop_fuel_mono data needle fuel : ∀ fuel' l r m x,
  (fuel ≤ fuel')%nat →
  lookup_loop fuel data needle l r m = Val x →
  lookup_loop fuel' data needle l r m = Val x.
Proof.
  induction fuel as [|fuel IH]; intros fuel' l r m x Hle; [discriminate|].
  destruct fuel' as [|fuel']; [lia|]. simpl. rewrite !bind_unfold.
  destruct (lookup_step data needle l r m) as [[[l' r'|p] m1]| |]; try done.
  apply IH. lia.
Qed.

(** The loop, run on a built index with a budget above the length of the
    range, returns without touching the memory; on a sorted index whose
    matching entries all lie in the range, it returns a match if there is
    one. *)
Lemma lookup_loop_spec m data es needle fuel : ∀ l r,
  is_index m data es →
  Z.of_nat (length es) ≤ INT_MAX →
  0 ≤ l → r < Z.of_nat (length es) →
  (Z.to_nat (r - l + 1) < fuel)%nat →
  ∃ p, lookup_loop fuel data needle l r m = Val (p, m) ∧
       (StronglySorted id_le es →
        (∀ j e, es !! j = Some e → osm_id e = needle →
                l ≤ Z.of_nat j ≤ r) →
        found es needle p).
Proof.
  induction fuel as [|fuel IH]; intros l r Hidx Hmax Hl Hr Hfuel; [lia|].
  destruct (lookup_step_eval m data es needle l r Hidx Hmax Hl Hr)
    as (s & Hs & Hstep).
  simpl. rewrite (bind_Val _ _ _ _ _ Hstep).
  destruct s as [l' r'|p].
  - pose proof (step_of_shrinks _ _ _ _ _ _ Hs) as (Hlr & Hl' & Hr' & Hlr' & Hsh).
    destruct (IH l' r') as (p & Hp & Hfound); try done; try lia.
    exists p. split; [done|]. intros Hsorted Hrange. apply Hfound; [done|].
    intros j e He Hid.
    specialize (Hrange j e He Hid).
    unfold step_of in Hs.
    destruct (Z.leb_spec l r); [|lia].
    pose proof (mid_bounds l r Hlr) as Hmid.
    set (mid := l + (r - l) ÷ 2) in *.
    destruct (es !! Z.to_nat mid) as [em|] eqn:Hem; simpl in Hs; [|done].
    destruct (Z.eqb_spec (osm_id em) needle); [done|].
    destruct (Z.ltb_spec (osm_id em) needle); injection Hs as <- <-.
    + clearbody mid. destruct (decide (Z.of_nat j ≤ mid)); [|lia].
      pose proof (sorted_lookup es j (Z.to_nat mid) e em Hsorted
                    ltac:(lia) He Hem).
      lia.
    + clearbody mid. destruct (decide (mid ≤ Z.of_nat j)); [|lia].
      pose proof (sorted_lookup es (Z.to_nat mid) j em e Hsorted
                    ltac:(lia) Hem He).
      lia.
  - exists p. split; [done|]. intros Hsorted Hrange.
    unfold step_of in Hs.
    destruct (Z.leb_spec l r) as [Hlr|Hlr].
    + destruct (es !! _) as [em|] eqn:Hem; simpl in Hs; [|done].
      destruct (Z.eqb_spec (osm_id em) needle); [|by destruct (_ <? _)].
      injection Hs as <-. left. exists em. split; [|done].
      apply list_elem_of_lookup. eauto.
    + injection Hs as <-. right. split; [done|].
      intros e [j He]%list_elem_of_lookup Hid.
      specialize (Hrange j e He Hid). lia.
Qed.

(** [lookup_indexed] on a built index. *)
Lemma lookup_indexed_spec m data es needle :
  is_index m data es →
  Z.of_nat (length es) ≤ INT_MAX →
  ∃ p, lookup_indexed data needle m = Val (p, m) ∧
       (StronglySorted id_le es → found es needle p).
Proof.
  intros Hidx Hmax.
  destruct (lookup_loop_spec m data es needle (S (length es)) 0
              (Z.of_nat (length es) - 1)) as (p & Hp & Hfound);
    try done; try lia.
  exists p. split.
  - destruct Hidx as (d & a & -> & Hd & Ha). unfold lookup_indexed.
    rewrite (bind_Val _ _ _ _ _ (get_n_Val _ _ _ _ Hd)).
    erewrite bind_Val;
      [|apply int_sub_Val; unfold INT_MIN, INT_MAX in *; lia].
    by rewrite Nat2Z.id.
  - intros Hsorted. apply Hfound; [done|].
    intros j e He _. apply lookup_lt_Some in He. lia.
Qed.
End BinsortLookup.

(** ** The Sorted Index: the built handle *)

Module BinsortIndex.
Import Binsort BinsortSpec BinsortAccess BinsortBuild BinsortLookup.
Implicit Types (m : mem cell) (es : list index_record).

Lemma elem_of_entries recs e :
  e ∈ entries recs ↔ ∃ i r, recs !! i = Some r ∧ e = entry i r.
Proof.
  unfold entries. rewrite elem_of_lookup_imap.
  split; intros (i & r & H1 & H2); eauto.
Qed.

Lemma contract_length qsort es :
  qsort_contract qsort compare_index_records →
  length (qsort compare_index_records es) = length es.
Proof. intros H. apply Permutation_length, H. Qed.

Lemma contract_sorted qsort es :
  qsort_contract qsort compare_index_records →
  StronglySorted id_le (qsort compare_index_records es).
Proof.
  intros H. apply Sorted_StronglySorted; [apply _|].
  destruct (H es) as [_ Hs].
  induction Hs as [|x l Hl IH Hhd]; constructor; [done|].
  destruct Hhd; constructor. by apply compare_le.
Qed.

(** A handle returned by [mk_indexed] designates an index over the sorted
    entries of the record array. *)
Lemma mk_indexed_inv qsort recs m data m' :
  qsort_contract qsort compare_index_records →
  Z.of_nat (length recs) ≤ INT_MAX →
  mk_indexed qsort recs (Ptr 0) (Z.of_nat (length recs)) m = Val (data, m') →
  data ≠ NULL →
  is_index m' data (qsort compare_index_records (entries recs)).
Proof.
  intros Hq Hmax Hmk Hdata.
  destruct (decide (grants 2 m)) as [Hg|Hg].
  - apply grants_2 in Hg as [o Ho].
    destruct (mk_indexed_builds qsort recs m o Ho Hmax)
      as (d & a & Hda & _ & _ & Hmk').
    rewrite Hmk in Hmk'. injection Hmk' as -> ->.
    exists d, a. split; [done|]. cbn [blocks].
    rewrite lookup_insert_ne, !lookup_insert_eq by done.
    by rewrite contract_length, entries_length.
  - destruct (mk_indexed_fails qsort recs (Ptr 0) (Z.of_nat (length recs)) m)
      as (m1 & Hmk' & _); [tauto|].
    rewrite Hmk in Hmk'. by injection Hmk' as -> _.
Qed.

(** Insertion sort honours the contract of [qsort]. *)
Lemma insert_perm cmp x l : insert cmp x l ≡ₚ x :: l.
Proof.
  induction l as [|y l IH]; simpl; [done|].
  destruct (cmp x y <=? 0); [done|]. by rewrite IH, Permutation_swap.
Qed.

Lemma insert_sorted x l :
  Sorted (λ a b, compare_index_records a b ≤ 0) l →
  Sorted (λ a b, compare_index_records a b ≤ 0)
    (insert compare_index_records x l).
Proof.
  induction 1 as [|y l Hl IH Hhd]; simpl.
  - by repeat constructor.
  - destruct (Z.leb_spec (compare_index_records x y) 0) as [Hxy|Hxy].
    + by repeat constructor.
    + constructor; [done|].
      assert (compare_index_records y x ≤ 0).
      { apply compare_le. unfold id_le.
        assert (¬ id_le x y) by (rewrite <- compare_le; lia).
        unfold id_le in *. lia. }
      destruct Hhd as [|z l' Hyz]; simpl; [by constructor|].
      destruct (_ <=? 0); by constructor.
Qed.

Lemma isort_contract : qsort_contract isort compare_index_records.
Proof.
  intros l. unfold isort. induction l as [|x l [IHp IHs]]; simpl.
  - split; [done|constructor].
  - split; [by rewrite insert_perm, IHp | by apply insert_sorted].
Qed.

(** Any number of queries on a built index leaves the memory as it is. *)
Lemma lookup_all_pure m data es ks :
  is_index m data es → Z.of_nat (length es) ≤ INT_MAX →
  ∃ ps, lookup_all data ks m = Val (ps, m).
Proof.
  intros Hidx Hmax. induction ks as [|k ks [ps IH]]; simpl.
  - by eexists.
  - destruct (lookup_indexed_spec m data es k Hidx Hmax) as (p & Hp & _).
    rewrite (bind_Val _ _ _ _ _ Hp), (bind_Val _ _ _ _ _ IH). by eexists.
Qed.

(** [free_indexed] releases the two blocks of an index. *)
Lemma free_indexed_releases m d a n c :
  d ≠ a →
  blocks m !! d = Some (indexed_data (Some (Ptr a)) n) →
  blocks m !! a = Some c →
  free_indexed (Ptr d) m =
    Val (tt, Mem (delete d (delete a (blocks m))) (oracle m)).
Proof.
  intros Hda Hd Ha. unfold free_indexed.
  rewrite (bind_Val _ _ _ _ _ (get_irs_Val _ _ _ _ Hd)).
  rewrite (bind_Val _ _ _ _ _ (free_Val _ _ _ Ha)).
  erewrite free_Val; [done|]. cbn [blocks]. by rewrite lookup_delete_ne.
Qed.

(** Building an index and releasing it leaves the heap as it was. *)
Lemma mk_indexed_then_free qsort recs m o :
  oracle m = true :: true :: o →
  Z.of_nat (length recs) ≤ INT_MAX →
  ∃ data m',
    mk_indexed qsort recs (Ptr 0) (Z.of_nat (length recs)) m
      = Val (data, m') ∧
    free_indexed data m' = Val (tt, Mem (blocks m) o).
Proof.
  intros Ho Hmax.
  destruct (mk_indexed_builds qsort recs m o Ho Hmax)
    as (d & a & Hda & Hd & Ha & Hmk).
  do 2 eexists. split; [exact Hmk|].
  erewrite free_indexed_releases; [|exact Hda| |].
  - cbn [blocks oracle]. do 3 f_equal. apply map_eq. intros x.
    destruct (decide (x = d)) as [->|]; [by rewrite lookup_delete_eq|].
    rewrite lookup_delete_ne by done.
    destruct (decide (x = a)) as [->|]; [by rewrite lookup_delete_eq|].
    by rewrite lookup_delete_ne, !lookup_insert_ne.
  - cbn [blocks]. rewrite lookup_insert_ne by done. apply lookup_insert_eq.
  - cbn [blocks]. apply lookup_insert_eq.
Qed.
End BinsortIndex.

(** ** Binary64 comparison and the squared distance *)

Module F64Facts.
Import F64.

Ltac compare_cases :=
  change (Pos.compare_cont Eq) with Pos.compare in *;
  repeat match goal with
    | H : context [Z.compare ?a ?b] |- _ =>
        destruct (Z.compare_spec a b); simpl in H; try discriminate
    | |- context [Z.compare ?a ?b] =>
        destruct (Z.compare_spec a b); simpl; try lia
    | H : context [Pos.compare ?a ?b] |- _ =>
        destruct (Pos.compare_spec a b); simpl in H; try discriminate
    | |- context [Pos.compare ?a ?b] =>
        destruct (Pos.compare_spec a b); simpl; try lia
    end;
  try done; try lia.

Lemma leb_refl x : is_nan x = false → leb x x = true.
Proof.
  unfold leb, SFleb. destruct x as [[]|[]| |[] m e]; simpl; try done;
    intros _; rewrite Z.compare_refl;
    change (Pos.compare_cont Eq) with Pos.compare;
    by rewrite Pos.compare_refl.
Qed.

Lemma ltb_leb x y : ltb x y = true → leb x y = true.
Proof.
  unfold ltb, leb, SFltb, SFleb. by destruct (SFcompare x y) as [[]|].
Qed.

Lemma leb_not_nan x y : leb x y = true → is_nan x = false ∧ is_nan y = false.
Proof.
  unfold leb, SFleb.
  destruct x as [[]|[]| |[] ? ?], y as [[]|[]| |[] ? ?]; by simpl.
Qed.

(** Among numbers, [x < y] fails only when [y <= x]. *)
Lemma ltb_false_leb x y :
  is_nan x = false → is_nan y = false → ltb x y = false → leb y x = true.
Proof.
  unfold ltb, leb, SFltb, SFleb.
  destruct x as [[]|[]| |[] mx ex], y as [[]|[]| |[] my ey]; simpl;
    try done; intros _ _ H; compare_cases.
Qed.

Lemma leb_trans x y z : leb x y = true → leb y z = true → leb x z = true.
Proof.
  unfold leb, SFleb.
  destruct x as [[]|[]| |[] mx ex], y as [[]|[]| |[] my ey],
           z as [[]|[]| |[] mz ez]; simpl; try done;
    intros H1 H2; compare_cases.
Qed.

Lemma ltb_leb_trans x y z :
  ltb x y = true → leb y z = true → ltb x z = true.
Proof.
  unfold ltb, leb, SFltb, SFleb.
  destruct x as [[]|[]| |[] mx ex], y as [[]|[]| |[] my ey],
           z as [[]|[]| |[] mz ez]; simpl; try done;
    intros H1 H2; compare_cases.
Qed.
Lemma ltb_not_leb x y : ltb x y = true → leb y x = true → False.
Proof.
  unfold ltb, leb, SFltb, SFleb.
  destruct x as [[]|[]| |[] mx ex], y as [[]|[]| |[] my ey]; simpl;
    try done; intros H1 H2; compare_cases.
Qed.
End F64Facts.

Module F64Rounding.
Import F64.

(** Rounding a non-negative mantissa never produces a NaN. *)
Lemma shr_1_nonneg mrs : 0 ≤ shr_m mrs → 0 ≤ shr_m (shr_1 mrs).
Proof. destruct mrs as [[|[p|p|]|p] r s]; simpl; lia. Qed.

Lemma iter_shr_1_nonneg p : ∀ mrs,
  0 ≤ shr_m mrs → 0 ≤ shr_m (SpecFloat.iter_pos shr_1 p mrs).
Proof.
  induction p as [p IH|p IH|]; intros mrs H; simpl.
  - apply IH, IH. by apply shr_1_nonneg.
  - by apply IH, IH.
  - by apply shr_1_nonneg.
Qed.

Lemma shr_fexp_nonneg m e l :
  0 ≤ m → 0 ≤ shr_m (fst (shr_fexp prec emax m e l)).
Proof.
  intros H. unfold shr_fexp, shr.
  assert (shr_m (shr_record_of_loc m l) = m) as Hm by by destruct l as [|[]].
  destruct (_ - e) as [|p|p]; simpl; try lia.
  apply iter_shr_1_nonneg. lia.
Qed.

Lemma round_nearest_even_nonneg m l : 0 ≤ m → 0 ≤ round_nearest_even m l.
Proof.
  intros H. destruct l as [|[]]; simpl; try lia. destruct (Z.even m); lia.
Qed.

Lemma binary_round_aux_cases s m e l :
  0 ≤ m →
  match binary_round_aux prec emax s m e l with
  | S754_zero s' | S754_infinity s' | S754_finite s' _ _ => s' = s
  | S754_nan => False
  end.
Proof.
  intros H. unfold binary_round_aux.
  pose proof (shr_fexp_nonneg m e l H) as H1.
  destruct (shr_fexp prec emax m e l) as [mrs' e']. simpl in H1.
  pose proof (shr_fexp_nonneg _ e' loc_Exact
                (round_nearest_even_nonneg _ (loc_of_shr_record mrs') H1))
    as H2.
  destruct (shr_fexp prec emax _ e' loc_Exact) as [mrs'' e'']. simpl in H2.
  destruct (shr_m mrs'') as [|p|p]; [done| |lia].
  by destruct (_ <=? _).
Qed.

Lemma binary_normalize_not_nan m e :
  is_nan (binary_normalize prec emax m e false) = false.
Proof.
  unfold binary_normalize, binary_round. destruct m as [|p|p]; [done|..].
  - destruct (shl_align _ _ _) as [mz ez].
    pose proof (binary_round_aux_cases false (Z.pos mz) ez loc_Exact) as H.
    destruct (binary_round_aux _ _ _ _ _ _); try done. by destruct H.
  - destruct (shl_align _ _ _) as [mz ez].
    pose proof (binary_round_aux_cases true (Z.pos mz) ez loc_Exact) as H.
    destruct (binary_round_aux _ _ _ _ _ _); try done. by destruct H.
Qed.

(** The difference of two finite numbers is a number. *)
Lemma sub_finite x y :
  is_finite x = true → is_finite y = true → is_nan (sub x y) = false.
Proof.
  unfold sub, SFsub.
  destruct x as [[]|[]| |sx mx ex], y as [[]|[]| |sy my ey]; try done.
  intros _ _. apply binary_normalize_not_nan.
Qed.

Lemma mul_self_pos x : is_nan x = false → is_pos (mul x x) = true.
Proof.
  unfold mul, SFmul. destruct x as [[]|[]| |s m e]; try done.
  intros _.
  pose proof (binary_round_aux_cases (xorb s s) (Z.pos (m * m)) (e + e)
                loc_Exact) as H.
  rewrite xorb_nilpotent in *.
  destruct (binary_round_aux _ _ _ _ _ _) as [s'|s'| |s' ? ?];
    try (by destruct H); rewrite H; done.
Qed.

Lemma add_pos_not_nan x y :
  is_pos x = true → is_pos y = true → is_nan (add x y) = false.
Proof.
  unfold add, SFadd.
  destruct x as [[]|[]| |[] mx ex], y as [[]|[]| |[] my ey]; try done.
  intros _ _. apply binary_normalize_not_nan.
Qed.

(** With finite coordinates on both sides, the squared distance is a
    number. *)
Lemma dist_sq_finite lon lat (r : record) :
  is_finite (record_h.lon r) = true → is_finite (record_h.lat r) = true →
  is_finite lon = true → is_finite lat = true →
  is_nan (CoordNaiveSpec.dist_sq lon lat r) = false.
Proof.
  intros. unfold CoordNaiveSpec.dist_sq.
  apply add_pos_not_nan; by apply mul_self_pos, sub_finite.
Qed.
End F64Rounding.

(** ** The Coordinate Scanner *)

Module CoordNaiveFacts.
Import CoordNaive CoordNaiveSpec F64Facts.
Implicit Types (m : mem cell) (d : addr).

Lemma naive_get_rs_Val m d rs n :
  blocks m !! d = Some (naive_data (Some rs) n) →
  get_rs (Ptr d) m = Val (rs, m).
Proof.
  intros H. unfold get_rs. by rewrite (bind_Val _ _ _ _ _ (load_Val _ _ _ H)).
Qed.

Lemma naive_get_n_Val m d rs n :
  blocks m !! d = Some (naive_data rs (Some n)) →
  get_n (Ptr d) m = Val (n, m).
Proof.
  intros H. unfold get_n. by rewrite (bind_Val _ _ _ _ _ (load_Val _ _ _ H)).
Qed.

(** A granted [mk_naive] returns a fresh handle holding [rs] and [n]. *)
Lemma mk_naive_builds rs n m o :
  oracle m = true :: o →
  mk_naive rs n m =
    Val (Ptr (fresh (dom (blocks m))),
         Mem (<[fresh (dom (blocks m)) := naive_data (Some rs) (Some n)]>
                (blocks m)) o).
Proof.
  intros Ho. unfold mk_naive.
  rewrite (bind_Val _ _ _ _ _ (malloc_granted _ _ _ Ho)). cbv beta iota.
  unfold set_rs, set_n.
  erewrite bind_Val; cycle 1.
  { erewrite bind_Val; [|apply load_Val; cbn [blocks]; apply lookup_insert_eq].
    eapply store_Val. cbn [blocks]. apply lookup_insert_eq. }
  cbn [blocks oracle].
  erewrite bind_Val; cycle 1.
  { erewrite bind_Val; [|apply load_Val; cbn [blocks]; apply lookup_insert_eq].
    eapply store_Val. cbn [blocks]. apply lookup_insert_eq. }
  cbn [blocks oracle]. by rewrite !insert_insert_eq.
Qed.

Lemma mk_naive_fails rs n m :
  ¬ grants 1 m →
  ∃ m', mk_naive rs n m = Val (NULL, m') ∧ blocks m' = blocks m.
Proof.
  intros H. destruct (malloc_refused m (naive_data None None) H) as (m' & Hm & Hb).
  exists m'. split; [|done]. unfold mk_naive. by rewrite (bind_Val _ _ _ _ _ Hm).
Qed.

Lemma mk_naive_inv n m data m' :
  mk_naive (Ptr 0) n m = Val (data, m') → data ≠ NULL → is_naive m' data n.
Proof.
  intros Hmk Hdata. destruct (decide (grants 1 m)) as [Hg|Hg].
  - destruct m as [b [|[] o]]; try done.
    rewrite (mk_naive_builds _ _ (Mem b (true :: o)) o eq_refl) in Hmk.
    injection Hmk as <- <-.
    eexists. split; [done|]. cbn [blocks]. apply lookup_insert_eq.
  - destruct (mk_naive_fails (Ptr 0) n m Hg) as (m1 & Hmk' & _).
    rewrite Hmk in Hmk'. by injection Hmk' as -> _.
Qed.

Section Scan.
Variable recs : list record.
Variables lon lat : double.
Variable m : mem cell.
Variable d : addr.
Hypothesis Hd :
  blocks m !! d
    = Some (naive_data (Some (Ptr 0)) (Some (Z.of_nat (length recs)))).
Hypothesis Hmax : Z.of_nat (length recs) ≤ INT_MAX.

Local Abbreviation dist := (dist_sq lon lat).
Local Abbreviation nearest_upto := (nearest_upto recs lon lat).

Lemma lookup_naive_loop_spec fuel : ∀ (i c : nat) rc,
  (c < i ≤ length recs)%nat →
  recs !! c = Some rc →
  (length recs - i < fuel)%nat →
  ∃ c', (c' < length recs)%nat ∧
    lookup_naive_loop recs fuel (Ptr d) lon lat (Ptr (Z.of_nat c))
      (dist rc) (Z.of_nat i) m = Val (Ptr (Z.of_nat c'), m) ∧
    ((∀ r, r ∈ recs → F64.is_nan (dist r) = false) →
     nearest_upto i c → nearest_upto (length recs) c').
Proof.
  induction fuel as [|fuel IH]; intros i c rc Hi Hc Hfuel; [lia|].
  simpl. rewrite (bind_Val _ _ _ _ _ (naive_get_n_Val _ _ _ _ Hd)).
  destruct (Z.ltb_spec (Z.of_nat i) (Z.of_nat (length recs))) as [Hlt|Hge].
  - destruct (lookup_lt_is_Some_2 recs i) as [r Hr]; [lia|].
    rewrite (bind_Val _ _ _ _ _ (naive_get_rs_Val _ _ _ _ Hd)).
    rewrite (bind_Val _ _ _ _ _ (ptr_add_Val _ _ _)), Z.add_0_l.
    erewrite bind_Val;
      [|apply deref_Val; [lia|by rewrite Nat2Z.id]].
    change (F64.add _ _) with (dist r).
    destruct (F64.ltb (dist r) (dist rc)) eqn:Hcmp.
    + erewrite bind_Val;
        [|apply int_add_Val; unfold INT_MIN, INT_MAX in *; lia].
      replace (Z.of_nat i + 1) with (Z.of_nat (S i)) by lia.
      destruct (IH (S i) i r) as (c' & Hc' & Hrun & Hinv);
        [lia|done|lia|].
      exists c'. split; [done|]. split; [done|].
      intros Hnan (rc0 & Hrc0 & Hle & Hlt'). apply Hinv; [done|].
      assert (rc0 = rc) as -> by congruence.
      exists r. split; [done|]. split.
      * intros j r' Hj Hr'. destruct (decide (j = i)) as [->|].
        -- assert (r' = r) as -> by congruence.
           apply leb_refl, Hnan, list_elem_of_lookup. eauto.
        -- apply ltb_leb. eapply ltb_leb_trans; [done|].
           apply (Hle j); [lia|done].
      * intros j r' Hj Hr'. eapply ltb_leb_trans; [done|].
        apply (Hle j); [lia|done].
    + erewrite bind_Val;
        [|apply int_add_Val; unfold INT_MIN, INT_MAX in *; lia].
      replace (Z.of_nat i + 1) with (Z.of_nat (S i)) by lia.
      destruct (IH (S i) c rc) as (c' & Hc' & Hrun & Hinv);
        [lia|done|lia|].
      exists c'. split; [done|]. split; [done|].
      intros Hnan (rc0 & Hrc0 & Hle & Hlt'). apply Hinv; [done|].
      assert (rc0 = rc) as -> by congruence.
      exists rc. split; [done|]. split; [|done].
      intros j r' Hj Hr'. destruct (decide (j = i)) as [->|].
      * assert (r' = r) as -> by congruence.
        apply ltb_false_leb; [| |done];
          apply Hnan, list_elem_of_lookup; eauto.
      * apply (Hle j); [lia|done].
  - assert (i = length recs) as -> by lia.
    exists c. split; [lia|]. split; [done|]. auto.
Qed.

(** [lookup_naive] on a handle over the whole record array. *)
Lemma lookup_naive_empty :
  recs = [] → lookup_naive recs (Ptr d) lon lat m = Val (NULL, m).
Proof.
  intros Hrecs. unfold lookup_naive.
  rewrite (bind_Val _ _ _ _ _ (naive_get_n_Val _ _ _ _ Hd)).
  destruct (Z.eqb_spec (Z.of_nat (length recs)) 0) as [_|Hn]; [done|].
  rewrite Hrecs in Hn. done.
Qed.

Lemma lookup_naive_nonempty :
  recs ≠ [] →
  ∃ c, (c < length recs)%nat ∧
    lookup_naive recs (Ptr d) lon lat m = Val (Ptr (Z.of_nat c), m) ∧
    ((∀ r, r ∈ recs → F64.is_nan (dist r) = false) →
     nearest_upto (length recs) c).
Proof.
  intros Hrecs. unfold lookup_naive.
  rewrite (bind_Val _ _ _ _ _ (naive_get_n_Val _ _ _ _ Hd)).
  assert (Hlen : (0 < length recs)%nat).
  { destruct (decide (length recs = 0%nat)) as [H0|]; [|lia].
    by apply nil_length_inv in H0. }
  destruct (lookup_lt_is_Some_2 recs 0 Hlen) as [r0 Hr0].
  destruct (Z.eqb_spec (Z.of_nat (length recs)) 0) as [?|_]; [lia|].
  rewrite (bind_Val _ _ _ _ _ (naive_get_rs_Val _ _ _ _ Hd)).
  rewrite (bind_Val _ _ _ _ _ (ptr_add_Val _ _ _)). simpl Z.add.
  erewrite bind_Val; [|by apply deref_Val].
  change (F64.add _ _) with (dist r0). rewrite Nat2Z.id.
  destruct (lookup_naive_loop_spec (S (length recs)) 1 0 r0)
    as (c & Hc & Hrun & Hinv); [lia|done|lia|].
  exists c. split; [done|]. split; [done|].
  intros Hnan. apply Hinv; [done|].
  exists r0. split; [done|]. split.
  - intros j r Hj Hr. assert (j = 0%nat) as -> by lia.
    assert (r = r0) as -> by congruence.
    apply leb_refl, Hnan, list_elem_of_lookup. eauto.
  - intros j r Hj. lia.
Qed.
End Scan.
End CoordNaiveFacts.

(** ** The Linear Scanner and the Compact Index *)

Module LinearFacts.
Import Linear LinearSpec.
Implicit Types (m : mem cell) (d : addr).

Lemma linear_get_rs_Val m d rs n :
  blocks m !! d = Some (linear_data (Some rs) n) →
  get_rs (Ptr d) m = Val (rs, m).
Proof.
  intros H. unfold get_rs. by rewrite (bind_Val _ _ _ _ _ (load_Val _ _ _ H)).
Qed.

Lemma linear_get_n_Val m d rs n :
  blocks m !! d = Some (linear_data rs (Some n)) →
  get_n (Ptr d) m = Val (n, m).
Proof.
  intros H. unfold get_n. by rewrite (bind_Val _ _ _ _ _ (load_Val _ _ _ H)).
Qed.

Lemma linear_build_builds rs n m o :
  oracle m = true :: o →
  build rs n m =
    Val (Ptr (fresh (dom (blocks m))),
         Mem (<[fresh (dom (blocks m)) := linear_data (Some rs) (Some n)]>
                (blocks m)) o).
Proof.
  intros Ho. unfold build.
  rewrite (bind_Val _ _ _ _ _ (malloc_granted _ _ _ Ho)). cbv beta iota.
  erewrite bind_Val;
    [|eapply store_Val; cbn [blocks]; apply lookup_insert_eq].
  cbn [blocks oracle]. by rewrite insert_insert_eq.
Qed.

Lemma linear_build_inv n m data m' :
  build (Ptr 0) n m = Val (data, m') → data ≠ NULL → is_linear m' data n.
Proof.
  intros Hmk Hdata. destruct m as [b [|[] o]]; try by injection Hmk as <-.
  rewrite (linear_build_builds _ _ (Mem b (true :: o)) o eq_refl) in Hmk.
  injection Hmk as <- <-.
  eexists. split; [done|]. cbn [blocks]. apply lookup_insert_eq.
Qed.

Lemma linear_lookup_loop_spec recs needle m fuel : ∀ (i : nat),
  Z.of_nat (length recs) ≤ INT_MAX →
  (length recs - i < fuel)%nat →
  (∀ j r, (j < i)%nat → recs !! j = Some r → record_h.osm_id r ≠ needle) →
  ∃ p, lookup_loop recs fuel (Ptr 0) (Z.of_nat (length recs)) needle
         (Z.of_nat i) m = Val (p, m) ∧
       first_match recs needle p.
Proof.
  induction fuel as [|fuel IH]; intros i Hmax Hfuel Hbefore; [lia|].
  simpl.
  destruct (Z.ltb_spec (Z.of_nat i) (Z.of_nat (length recs))) as [Hlt|Hge].
  - destruct (lookup_lt_is_Some_2 recs i) as [r Hr]; [lia|].
    rewrite (bind_Val _ (ret _) m _ m eq_refl), Z.add_0_l.
    erewrite bind_Val; [|apply deref_Val; [lia|by rewrite Nat2Z.id]].
    destruct (Z.eqb_spec (record_h.osm_id r) needle) as [Heq|Hne].
    + eexists. split; [reflexivity|]. simpl. eauto 10.
    + erewrite bind_Val;
        [|apply int_add_Val; unfold INT_MIN, INT_MAX in *; lia].
      replace (Z.of_nat i + 1) with (Z.of_nat (S i)) by lia.
      apply IH; [done|lia|].
      intros j r' Hj Hr'. destruct (decide (j = i)) as [->|].
      * congruence.
      * apply (Hbefore j); [lia|done].
  - eexists. split; [reflexivity|]. simpl.
    intros r [j Hj]%list_elem_of_lookup.
    apply (Hbefore j); [|done]. apply lookup_lt_Some in Hj. lia.
Qed.

Lemma linear_lookup_spec recs needle m data :
  is_linear m data (Z.of_nat (length recs)) →
  Z.of_nat (length recs) ≤ INT_MAX →
  ∃ p, lookup recs data needle m = Val (p, m) ∧ first_match recs needle p.
Proof.
  intros (d & -> & Hd) Hmax. unfold lookup.
  rewrite (bind_Val _ _ _ _ _ (linear_get_n_Val _ _ _ _ Hd)).
  rewrite (bind_Val _ _ _ _ _ (linear_get_rs_Val _ _ _ _ Hd)).
  rewrite Nat2Z.id.
  apply (linear_lookup_loop_spec recs needle m _ 0); [done|lia|]. intros; lia.
Qed.
End LinearFacts.

Module CompactFacts.
Import Binsort BinsortSpec BinsortAccess BinsortBuild BinsortIndex Compact.
Implicit Types (m : mem cell) (d a : addr).

Lemma compact_build_builds recs m o :
  oracle m = true :: true :: o →
  Z.of_nat (length recs) ≤ INT_MAX →
  ∃ data m', build recs (Ptr 0) (Z.of_nat (length recs)) m = Val (data, m') ∧
             is_index m' data (entries recs).
Proof.
  intros Ho Hmax.
  set (d := fresh (dom (blocks m))).
  set (b1 := <[d := indexed_data None None]> (blocks m)).
  set (a := fresh (dom b1)).
  assert (Ha1 : b1 !! a = None) by apply (fresh_block_unused (Mem b1 [])).
  assert (Hda : d ≠ a).
  { intros <-. unfold b1 in Ha1. by rewrite lookup_insert_eq in Ha1. }
  unfold build.
  rewrite (bind_Val _ _ _ _ _ (malloc_granted _ _ _ Ho)). fold d b1.
  unfold malloc_irs.
  destruct (Z.ltb_spec (Z.of_nat (length recs)) 0) as [?|_]; [lia|].
  erewrite bind_Val; [|by apply malloc_granted]. cbn [blocks]. fold a.
  rewrite Nat2Z.id. cbv beta iota.
  erewrite bind_Val; cycle 1.
  { eapply set_irs_Val. cbn [blocks]. rewrite lookup_insert_ne by done.
    unfold b1. by rewrite lookup_insert_eq. }
  cbn [blocks oracle].
  erewrite bind_Val; cycle 1.
  { eapply (mk_indexed_loop_fills recs d a None _ 0%nat); try done; try lia.
    - cbn [blocks]. by rewrite lookup_insert_eq.
    - cbn [blocks]. rewrite lookup_insert_ne, lookup_insert_eq by done.
      by rewrite take_0, Nat.sub_0_r. }
  cbn [blocks oracle].
  erewrite bind_Val; cycle 1.
  { eapply set_n_Val. cbn [blocks].
    rewrite lookup_insert_ne, lookup_insert_eq by done. done. }
  cbn [blocks oracle].
  do 2 eexists. split; [reflexivity|].
  exists d, a. split; [done|]. cbn [blocks].
  rewrite lookup_insert_eq, lookup_insert_ne, lookup_insert_eq by done.
  by rewrite entries_length.
Qed.

Lemma compact_build_fails recs rs n m :
  ¬ (grants 2 m ∧ 0 ≤ n) →
  ∃ m', build recs rs n m = Val (NULL, m') ∧ blocks m' = blocks m.
Proof.
  intros Hfail. unfold build.
  destruct m as [b [|[] o]].
  - eexists. split; [reflexivity|done].
  - rewrite (bind_Val _ _ _ _ _ (malloc_granted (Mem b (true :: o)) _ o eq_refl)).
    cbn [blocks].
    set (d := fresh (dom b)).
    assert (∃ o', malloc_irs n (Mem (<[d:=indexed_data None None]> b) o)
                  = Val (NULL, Mem (<[d:=indexed_data None None]> b) o'))
      as [o' Hirs].
    { unfold malloc_irs. destruct (Z.ltb_spec n 0) as [Hn|Hn].
      - eexists. reflexivity.
      - destruct o as [|[] o]; try (eexists; reflexivity).
        destruct Hfail. split; [|done]. reflexivity. }
    rewrite (bind_Val _ _ _ _ _ Hirs). cbv beta iota.
    erewrite bind_Val; cycle 1.
    { eapply free_Val. cbn [blocks]. by rewrite lookup_insert_eq. }
    eexists. split; [reflexivity|]. cbn [blocks].
    apply map_eq. intros x.
    destruct (decide (x = d)) as [->|].
    + rewrite lookup_delete_eq. symmetry.
      apply (fresh_block_unused (Mem b [])).
    + by rewrite lookup_delete_ne, lookup_insert_ne.
  - eexists. split; [reflexivity|done].
Qed.

Lemma compact_build_inv recs m data m' :
  Z.of_nat (length recs) ≤ INT_MAX →
  build recs (Ptr 0) (Z.of_nat (length recs)) m = Val (data, m') →
  data ≠ NULL →
  is_index m' data (entries recs).
Proof.
  intros Hmax Hmk Hdata.
  destruct (decide (grants 2 m)) as [Hg|Hg].
  - apply grants_2 in Hg as [o Ho].
    destruct (compact_build_builds recs m o Ho Hmax) as (data1 & m1 & Hmk' & Hidx).
    rewrite Hmk in Hmk'. by injection Hmk' as -> ->.
  - destruct (compact_build_fails recs (Ptr 0) (Z.of_nat (length recs)) m)
      as (m1 & Hmk' & _); [tauto|].
    rewrite Hmk in Hmk'. by injection Hmk' as -> _.
Qed.

Lemma compact_lookup_loop_spec recs needle m data fuel : ∀ (i : nat),
  is_index m data (entries recs) →
  Z.of_nat (length recs) ≤ INT_MAX →
  (length recs - i < fuel)%nat →
  (∀ j r, (j < i)%nat → recs !! j = Some r → record_h.osm_id r ≠ needle) →
  ∃ p, lookup_loop fuel data (Z.of_nat (length recs)) needle
         (Z.of_nat i) m = Val (p, m) ∧
       first_match recs needle p.
Proof.
  induction fuel as [|fuel IH]; intros i Hidx Hmax Hfuel Hbefore; [lia|].
  simpl.
  destruct (Z.ltb_spec (Z.of_nat i) (Z.of_nat (length recs))) as [Hlt|Hge].
  - destruct (lookup_lt_is_Some_2 recs i) as [r Hr]; [lia|].
    destruct Hidx as (d & a & -> & Hd & Ha).
    erewrite bind_Val; cycle 1.
    { eapply read_irs_Val; [exact Hd|exact Ha|lia|].
      by rewrite Nat2Z.id, list_lookup_fmap, entries_lookup, Hr. }
    simpl.
    destruct (Z.eqb_spec (record_h.osm_id r) needle) as [Heq|Hne].
    + eexists. split; [reflexivity|]. simpl. eauto 10.
    + erewrite bind_Val;
        [|apply int_add_Val; unfold INT_MIN, INT_MAX in *; lia].
      replace (Z.of_nat i + 1) with (Z.of_nat (S i)) by lia.
      apply IH; [by exists d, a|done|lia|].
      intros j r' Hj Hr'. destruct (decide (j = i)) as [->|].
      * congruence.
      * apply (Hbefore j); [lia|done].
  - eexists. split; [reflexivity|]. simpl.
    intros r [j Hj]%list_elem_of_lookup.
    apply (Hbefore j); [|done]. apply lookup_lt_Some in Hj. lia.
Qed.

Lemma compact_lookup_spec recs needle m data :
  is_index m data (entries recs) →
  Z.of_nat (length recs) ≤ INT_MAX →
  ∃ p, lookup data needle m = Val (p, m) ∧ first_match recs needle p.
Proof.
  intros Hidx Hmax. unfold lookup.
  destruct Hidx as (d & a & -> & Hd & Ha).
  rewrite (bind_Val _ _ _ _ _ (get_n_Val _ _ _ _ Hd)).
  rewrite entries_length, Nat2Z.id.
  apply (compact_lookup_loop_spec recs needle m _ _ 0); [|done|lia|intros; lia].
  exists d, a. done.
Qed.
End CompactFacts.

(** ** Properties of the Sorted Index *)

Module SortedIndex.
Import Binsort BinsortSpec BinsortAccess BinsortBuild BinsortLookup
       BinsortIndex Examples.

(** What [found] means on an index over the entries of [recs]. *)
Lemma found_entries recs es k p :
  es ≡ₚ entries recs → found es k p →
  (∃ i r, p = Ptr (Z.of_nat i) ∧ recs !! i = Some r ∧ record_h.osm_id r = k) ∨
  (p = NULL ∧ ∀ r, r ∈ recs → record_h.osm_id r ≠ k).
Proof.
  intros Hperm [(e & He & Hid & ->)|[-> Hnone]].
  - left. rewrite Hperm in He.
    apply elem_of_entries in He as (i & r & Hr & ->). eauto.
  - right. split; [done|]. intros r [i Hr]%list_elem_of_lookup.
    apply (Hnone (entry i r)). rewrite Hperm.
    apply elem_of_entries. eauto.
Qed.

(** C1.  On an index that [mk_indexed] built from the record array,
    [lookup_indexed] returns a record whose identifier is the wanted one
    whenever some record has it, and [NULL] whenever none has. *)
Theorem lookup_indexed_correct qsort recs m data m' k :
  qsort_contract qsort compare_index_records →
  Z.of_nat (length recs) ≤ INT_MAX →
  mk_indexed qsort recs (Ptr 0) (Z.of_nat (length recs)) m = Val (data, m') →
  data ≠ NULL →
  ∃ p, lookup_indexed data k m' = Val (p, m') ∧
    ((∃ r, r ∈ recs ∧ record_h.osm_id r = k) →
     ∃ i r, p = Ptr (Z.of_nat i) ∧ recs !! i = Some r ∧
            record_h.osm_id r = k) ∧
    ((∀ r, r ∈ recs → record_h.osm_id r ≠ k) → p = NULL).
Proof.
  intros Hq Hmax Hmk Hdata.
  pose proof (mk_indexed_inv _ _ _ _ _ Hq Hmax Hmk Hdata) as Hidx.
  destruct (lookup_indexed_spec m' data _ k Hidx) as (p & Hp & Hfound).
  { by rewrite contract_length, entries_length. }
  exists p. split; [done|].
  destruct (found_entries recs _ k p (proj1 (Hq _))
              (Hfound (contract_sorted _ _ Hq)))
    as [(i & r & -> & Hr & Hid)|[-> Hnone]].
  - split; [eauto|]. intros Hnone. destruct (Hnone r); [|done].
    apply list_elem_of_lookup. eauto.
  - split; [|done]. intros (r & Hr & Hid). by destruct (Hnone r).
Qed.

Lemma lookup_indexed_correct_witness :
  mk_indexed isort places (Ptr 0) 3 fresh_mem
    = Val (handle_of sorted_build, mem_of sorted_build) ∧
  ∃ p, lookup_indexed (handle_of sorted_build) 45 (mem_of sorted_build)
         = Val (p, mem_of sorted_build) ∧
    ((∃ r, r ∈ places ∧ record_h.osm_id r = 45) →
     ∃ i r, p = Ptr (Z.of_nat i) ∧ places !! i = Some r ∧
            record_h.osm_id r = 45) ∧
    ((∀ r, r ∈ places → record_h.osm_id r ≠ 45) → p = NULL).
Proof.
  split; [vm_compute; reflexivity|].
  apply (lookup_indexed_correct isort places fresh_mem).
  - apply isort_contract.
  - vm_compute. discriminate.
  - vm_compute. reflexivity.
  - vm_compute. discriminate.
Defined.

(** C3.  After a successful [mk_indexed] the entry array is a
    rearrangement of the entries of the record array in which identifiers
    never decrease, and any sequence of queries leaves the memory, hence
    the array, as it is. *)
Theorem mk_indexed_sorted qsort recs m data m' ks :
  qsort_contract qsort compare_index_records →
  Z.of_nat (length recs) ≤ INT_MAX →
  mk_indexed qsort recs (Ptr 0) (Z.of_nat (length recs)) m = Val (data, m') →
  data ≠ NULL →
  ∃ es, is_index m' data es ∧ es ≡ₚ entries recs ∧
        StronglySorted id_le es ∧
        ∃ ps, lookup_all data ks m' = Val (ps, m').
Proof.
  intros Hq Hmax Hmk Hdata.
  pose proof (mk_indexed_inv _ _ _ _ _ Hq Hmax Hmk Hdata) as Hidx.
  eexists. split; [exact Hidx|]. split; [apply Hq|].
  split; [by apply contract_sorted|].
  eapply lookup_all_pure; [exact Hidx|].
  by rewrite contract_length, entries_length.
Qed.

Lemma mk_indexed_sorted_witness :
  mk_indexed isort places (Ptr 0) 3 fresh_mem
    = Val (handle_of sorted_build, mem_of sorted_build) ∧
  ∃ es, is_index (mem_of sorted_build) (handle_of sorted_build) es ∧
        es ≡ₚ entries places ∧ StronglySorted id_le es ∧
        ∃ ps, lookup_all (handle_of sorted_build) [45; 99999; 7]
                (mem_of sorted_build) = Val (ps, mem_of sorted_build).
Proof.
  split; [vm_compute; reflexivity|].
  apply (mk_indexed_sorted isort places fresh_mem).
  - apply isort_contract.
  - vm_compute. discriminate.
  - vm_compute. reflexivity.
  - vm_compute. discriminate.
Defined.

(** C4.  When the allocator refuses one of the two requests of
    [mk_indexed] (a negative [n] makes the array request ungrantable),
    the call returns [NULL] and the heap holds exactly the blocks it held
    before the call. *)
Theorem mk_indexed_allocation_failure qsort recs rs n m :
  ¬ (grants 2 m ∧ 0 ≤ n) →
  ∃ m', mk_indexed qsort recs rs n m = Val (NULL, m') ∧
        blocks m' = blocks m.
Proof. apply mk_indexed_fails. Qed.

Lemma mk_indexed_allocation_failure_witness :
  ¬ (grants 2 (Mem (∅ : gmap addr cell) [true; false]) ∧ 0 ≤ 3) ∧
  ∃ m', mk_indexed isort places (Ptr 0) 3 (Mem ∅ [true; false])
          = Val (NULL, m') ∧
        blocks m' = ∅.
Proof.
  assert (H : ¬ (grants 2 (Mem (∅ : gmap addr cell) [true; false]) ∧ 0 ≤ 3)).
  { intros [Hg _]. vm_compute in Hg. discriminate. }
  split; [exact H|].
  exact (mk_indexed_allocation_failure isort places (Ptr 0) 3
           (Mem ∅ [true; false]) H).
Defined.

(** The loop follows the canonical search. *)
Lemma lookup_loop_canonical m data es needle fuel : ∀ l r p m',
  is_index m data es →
  Z.of_nat (length es) ≤ INT_MAX →
  0 ≤ l → r < Z.of_nat (length es) →
  lookup_loop fuel data needle l r m = Val (p, m') →
  canonical_search es needle l r p.
Proof.
  induction fuel as [|fuel IH]; intros l r p m' Hidx Hmax Hl Hr Hrun;
    [discriminate|].
  destruct (lookup_step_eval m data es needle l r Hidx Hmax Hl Hr)
    as (s & Hs & Hstep).
  simpl in Hrun. rewrite (bind_Val _ _ _ _ _ Hstep) in Hrun.
  unfold step_of in Hs.
  destruct (Z.leb_spec l r) as [Hlr|Hlr].
  - pose proof (mid_bounds l r Hlr) as Hmid.
    destruct (es !! Z.to_nat (l + (r - l) ÷ 2)) as [e|] eqn:He;
      simpl in Hs; [|done].
    destruct (Z.eqb_spec (osm_id e) needle) as [Heq|Hne].
    + injection Hs as <-. injection Hrun as <- <-. by eapply search_found.
    + destruct (Z.ltb_spec (osm_id e) needle) as [Hlt|Hge];
        injection Hs as <-.
      * eapply search_upper; [done..|].
        apply (IH _ _ _ m'); try done; lia.
      * eapply search_lower; [done|done|lia|].
        apply (IH _ _ _ m'); try done; lia.
  - injection Hs as <-. injection Hrun as <- <-. by apply search_empty.
Qed.

(** Every range the loop goes through lies within the array. *)
Lemma reachable_bounds m data es needle low high :
  is_index m data es →
  Z.of_nat (length es) ≤ INT_MAX →
  reachable data needle m (Z.of_nat (length es)) low high →
  0 ≤ low ∧ high < Z.of_nat (length es) ∧ low ≤ high + 1.
Proof.
  intros Hidx Hmax. induction 1 as [|l r l' r' m' _ (Hl & Hr & Hlr) Hstep];
    [lia|].
  destruct (lookup_step_eval m data es needle l r Hidx Hmax Hl Hr)
    as (s & Hs & Hstep').
  rewrite Hstep in Hstep'. injection Hstep' as <- _.
  apply step_of_shrinks in Hs. lia.
Qed.

(** C7.  [lookup_indexed] on a built index is the canonical iterative
    binary search.  It runs the loop from the closed range [[0, n - 1]] and
    its answer is the one the canonical search gives on that range.  Every
    range [[low, high]] the loop goes through satisfies [0 <= low] and
    [high < n].  On every such range with [low <= high] the differences and
    the midpoint [low + (high - low) / 2] are computed within [int], the
    midpoint lies in the range, and the iteration returns the record of
    the entry there if it has the wanted identifier, continues with
    [low = mid + 1] if the entry's identifier is smaller, and with
    [high = mid - 1] otherwise; with [low > high] the search returns
    [NULL]. *)
Theorem lookup_indexed_canonical m data es needle :
  is_index m data es →
  Z.of_nat (length es) ≤ INT_MAX →
  (∃ p, lookup_indexed data needle m = Val (p, m) ∧
        lookup_indexed data needle m
          = lookup_loop (S (length es)) data needle 0
              (Z.of_nat (length es) - 1) m ∧
        canonical_search es needle 0 (Z.of_nat (length es) - 1) p) ∧
  (∀ low high,
     reachable data needle m (Z.of_nat (length es)) low high →
     0 ≤ low ∧ high < Z.of_nat (length es) ∧ low ≤ high + 1) ∧
  ∀ low high,
    0 ≤ low → high < Z.of_nat (length es) →
    (low ≤ high →
     let mid := low + (high - low) ÷ 2 in
     in_int (high - low) = true ∧ in_int ((high - low) ÷ 2) = true ∧
     in_int mid = true ∧ low ≤ mid ≤ high ∧
     ∃ e, es !! Z.to_nat mid = Some e ∧
          lookup_step data needle low high m =
            Val (if osm_id e =? needle then Return (record e)
                 else if osm_id e <? needle then Continue (mid + 1) high
                 else Continue low (mid - 1), m)) ∧
    (high < low →
     lookup_step data needle low high m = Val (Return NULL, m) ∧
     ∀ fuel, lookup_loop (S fuel) data needle low high m = Val (NULL, m)).
Proof.
  intros Hidx Hmax. split; [|split].
  - destruct (lookup_indexed_spec m data es needle Hidx Hmax) as (p & Hp & _).
    assert (Hunfold : lookup_indexed data needle m
              = lookup_loop (S (length es)) data needle 0
                  (Z.of_nat (length es) - 1) m).
    { destruct Hidx as (d & a & -> & Hd & Ha). unfold lookup_indexed.
      rewrite (bind_Val _ _ _ _ _ (get_n_Val _ _ _ _ Hd)).
      erewrite bind_Val;
        [|apply int_sub_Val; unfold INT_MIN, INT_MAX in *; lia].
      by rewrite Nat2Z.id. }
    exists p. split; [done|]. split; [done|].
    rewrite Hunfold in Hp.
    eapply lookup_loop_canonical; try eassumption; lia.
  - intros low high. by apply reachable_bounds.
  - intros low high Hlow Hhigh.
    destruct (lookup_step_eval m data es needle low high Hidx Hmax Hlow Hhigh)
      as (s & Hs & Hstep).
    unfold step_of in Hs. split.
    + intros Hle mid. pose proof (mid_bounds low high Hle) as Hmid.
      fold mid in Hmid, Hs.
      assert ((high - low) ÷ 2 = mid - low) as Hq by (unfold mid; lia).
      repeat split; try lia;
        try (apply in_int_true; unfold INT_MIN, INT_MAX in *; lia).
      destruct (Z.leb_spec low high); [|lia].
      destruct (es !! Z.to_nat mid) as [e|]; simpl in Hs; [|done].
      exists e. split; [done|]. by injection Hs as <-.
    + intros Hlt. destruct (Z.leb_spec low high); [lia|].
      injection Hs as <-. split; [done|]. intros fuel. simpl.
      by rewrite (bind_Val _ _ _ _ _ Hstep).
Qed.

Lemma lookup_indexed_canonical_witness :
  is_index (mem_of sorted_build) (handle_of sorted_build)
    (isort compare_index_records (entries places)) ∧
  lookup_indexed (handle_of sorted_build) 1337 (mem_of sorted_build)
    = Val (Ptr 0, mem_of sorted_build) ∧
  (∃ p, lookup_indexed (handle_of sorted_build) 1337 (mem_of sorted_build)
          = Val (p, mem_of sorted_build) ∧
        lookup_indexed (handle_of sorted_build) 1337 (mem_of sorted_build)
          = lookup_loop 4 (handle_of sorted_build) 1337 0 (3 - 1)
              (mem_of sorted_build) ∧
        canonical_search (isort compare_index_records (entries places))
          1337 0 (3 - 1) p) ∧
  (∀ low high,
     reachable (handle_of sorted_build) 1337 (mem_of sorted_build) 3
       low high →
     0 ≤ low ∧ high < 3 ∧ low ≤ high + 1) ∧
  ∀ low high,
    0 ≤ low → high < 3 →
    (low ≤ high →
     let mid := low + (high - low) ÷ 2 in
     in_int (high - low) = true ∧ in_int ((high - low) ÷ 2) = true ∧
     in_int mid = true ∧ low ≤ mid ≤ high ∧
     ∃ e, isort compare_index_records (entries places) !! Z.to_nat mid
            = Some e ∧
          lookup_step (handle_of sorted_build) 1337 low high
            (mem_of sorted_build) =
            Val (if osm_id e =? 1337 then Return (record e)
                 else if osm_id e <? 1337 then Continue (mid + 1) high
                 else Continue low (mid - 1), mem_of sorted_build)) ∧
    (high < low →
     lookup_step (handle_of sorted_build) 1337 low high (mem_of sorted_build)
       = Val (Return NULL, mem_of sorted_build) ∧
     ∀ fuel, lookup_loop (S fuel) (handle_of sorted_build) 1337 low high
               (mem_of sorted_build) = Val (NULL, mem_of sorted_build)).
Proof.
  assert (Hidx : is_index (mem_of sorted_build) (handle_of sorted_build)
                   (isort compare_index_records (entries places))).
  { exists 1%positive, 2%positive. vm_compute. auto. }
  split; [exact Hidx|]. split; [vm_compute; reflexivity|].
  apply (lookup_indexed_canonical (mem_of sorted_build)
           (handle_of sorted_build)
           (isort compare_index_records (entries places)) 1337 Hidx).
  vm_compute. discriminate.
Defined.

(** C10.  On a built index every iteration that continues keeps the
    range within the array and makes it strictly shorter, and the loop
    returns: [lookup_indexed] yields a result, the same that the loop
    yields with any iteration budget above the number of entries. *)
Theorem lookup_indexed_terminates m data es needle :
  is_index m data es →
  Z.of_nat (length es) ≤ INT_MAX →
  (∀ left right left' right' m1,
     0 ≤ left → right < Z.of_nat (length es) →
     lookup_step data needle left right m = Val (Continue left' right', m1) →
     m1 = m ∧ 0 ≤ left' ∧ right' < Z.of_nat (length es) ∧
     right' - left' < right - left) ∧
  ∃ p, lookup_indexed data needle m = Val (p, m) ∧
       ∀ fuel, (length es < fuel)%nat →
         lookup_loop fuel data needle 0 (Z.of_nat (length es) - 1) m
           = Val (p, m).
Proof.
  intros Hidx Hmax. split.
  - intros l r l' r' m1 Hl Hr Hstep.
    destruct (lookup_step_eval m data es needle l r Hidx Hmax Hl Hr)
      as (s & Hs & Hstep').
    rewrite Hstep in Hstep'. injection Hstep' as <- ->.
    pose proof (step_of_shrinks _ _ _ _ _ _ Hs). split; [done|]. lia.
  - destruct (lookup_indexed_spec m data es needle Hidx Hmax)
      as (p & Hp & _).
    exists p. split; [done|]. intros fuel Hfuel.
    destruct (lookup_loop_spec m data es needle fuel 0
                (Z.of_nat (length es) - 1)) as (p' & Hp' & _);
      try done; try lia.
    rewrite Hp'. do 2 f_equal.
    destruct (lookup_loop_spec m data es needle (S (length es)) 0
                (Z.of_nat (length es) - 1)) as (p'' & Hp'' & _);
      try done; try lia.
    assert (Hp2 : lookup_indexed data needle m = Val (p'', m)).
    { destruct Hidx as (d & a & -> & Hd & Ha). unfold lookup_indexed.
      rewrite (bind_Val _ _ _ _ _ (get_n_Val _ _ _ _ Hd)).
      erewrite bind_Val;
        [|apply int_sub_Val; unfold INT_MIN, INT_MAX in *; lia].
      by rewrite Nat2Z.id. }
    rewrite Hp in Hp2. injection Hp2 as ->.
    pose proof (lookup_loop_fuel_mono data needle (S (length es)) fuel
                  0 (Z.of_nat (length es) - 1) m (p'', m) ltac:(lia) Hp'')
      as Hmono.
    rewrite Hp' in Hmono. by injection Hmono.
Qed.

Lemma lookup_indexed_terminates_witness :
  is_index (mem_of sorted_build) (handle_of sorted_build)
    (isort compare_index_records (entries places)) ∧
  ∃ p, lookup_indexed (handle_of sorted_build) 99999 (mem_of sorted_build)
         = Val (p, mem_of sorted_build) ∧
       ∀ fuel, (3 < fuel)%nat →
         lookup_loop fuel (handle_of sorted_build) 99999 0 2
           (mem_of sorted_build) = Val (p, mem_of sorted_build).
Proof.
  assert (Hidx : is_index (mem_of sorted_build) (handle_of sorted_build)
                   (isort compare_index_records (entries places))).
  { exists 1%positive, 2%positive. vm_compute. auto. }
  split; [exact Hidx|].
  refine (proj2 (lookup_indexed_terminates (mem_of sorted_build)
                   (handle_of sorted_build)
                   (isort compare_index_records (entries places))
                   99999 Hidx _)).
  vm_compute. discriminate.
Defined.
End SortedIndex.

(** ** Properties of the Coordinate Scanner *)

Module CoordinateScanner.
Import CoordNaive CoordNaiveSpec CoordNaiveFacts F64Facts F64Rounding
       Examples.

(** C8.  On a handle that [mk_naive] built over the record array,
    [lookup_naive] returns [NULL] exactly when the array is empty, and a
    reference to one of the records otherwise. *)
Theorem lookup_naive_null_iff_empty recs lon lat m data m' :
  Z.of_nat (length recs) ≤ INT_MAX →
  mk_naive (Ptr 0) (Z.of_nat (length recs)) m = Val (data, m') →
  data ≠ NULL →
  ∃ p, lookup_naive recs data lon lat m' = Val (p, m') ∧
       (p = NULL ↔ recs = []) ∧
       (recs ≠ [] → ∃ i r, p = Ptr (Z.of_nat i) ∧ recs !! i = Some r).
Proof.
  intros Hmax Hmk Hdata.
  destruct (mk_naive_inv _ _ _ _ Hmk Hdata) as (d & -> & Hd).
  destruct (decide (recs = [])) as [Hrecs|Hrecs].
  - exists NULL. split; [by apply lookup_naive_empty|]. done.
  - destruct (lookup_naive_nonempty recs lon lat m' d Hd Hmax Hrecs)
      as (c & Hc & Hrun & _).
    exists (Ptr (Z.of_nat c)). split; [done|]. split; [done|].
    intros _. destruct (lookup_lt_is_Some_2 recs c Hc) as [r Hr]. eauto.
Qed.

Lemma lookup_naive_null_iff_empty_witness :
  mk_naive (Ptr 0) 3 fresh_mem
    = Val (handle_of naive_build, mem_of naive_build) ∧
  ∃ p, lookup_naive places (handle_of naive_build) (dyadic 1 0) (dyadic 1 0)
         (mem_of naive_build) = Val (p, mem_of naive_build) ∧
       (p = NULL ↔ places = []) ∧
       (places ≠ [] → ∃ i r, p = Ptr (Z.of_nat i) ∧ places !! i = Some r).
Proof.
  split; [vm_compute; reflexivity|].
  apply (lookup_naive_null_iff_empty places _ _ fresh_mem).
  - vm_compute. discriminate.
  - vm_compute. reflexivity.
  - vm_compute. discriminate.
Defined.

(** C2, as amended.  For a non-empty record array and a query point for
    which no record's squared distance is a NaN, [lookup_naive] returns a
    record whose squared distance is less than or equal to that of every
    record, every record before it is strictly farther, and so it is the
    earliest of the records at the least distance. *)
Theorem lookup_naive_nearest recs lon lat m data m' :
  recs ≠ [] →
  Z.of_nat (length recs) ≤ INT_MAX →
  mk_naive (Ptr 0) (Z.of_nat (length recs)) m = Val (data, m') →
  data ≠ NULL →
  (∀ r, r ∈ recs → F64.is_nan (dist_sq lon lat r) = false) →
  ∃ i r,
    lookup_naive recs data lon lat m' = Val (Ptr (Z.of_nat i), m') ∧
    recs !! i = Some r ∧
    (∀ j r', recs !! j = Some r' →
             F64.leb (dist_sq lon lat r) (dist_sq lon lat r') = true) ∧
    (∀ j r', (j < i)%nat → recs !! j = Some r' →
             F64.ltb (dist_sq lon lat r) (dist_sq lon lat r') = true) ∧
    (∀ j r', recs !! j = Some r' →
             F64.leb (dist_sq lon lat r') (dist_sq lon lat r) = true →
             (i ≤ j)%nat).
Proof.
  intros Hrecs Hmax Hmk Hdata Hnan.
  destruct (mk_naive_inv _ _ _ _ Hmk Hdata) as (d & -> & Hd).
  destruct (lookup_naive_nonempty recs lon lat m' d Hd Hmax Hrecs)
    as (c & Hc & Hrun & Hnear).
  destruct (Hnear Hnan) as (rc & Hrc & Hle & Hlt).
  exists c, rc. split; [done|]. split; [done|]. split; [|split; [done|]].
  - intros j r' Hr'. apply (Hle j); [|done]. by apply lookup_lt_Some in Hr'.
  - intros j r' Hr' Hle'. destruct (decide (c ≤ j)%nat); [done|].
    destruct (ltb_not_leb (dist_sq lon lat rc) (dist_sq lon lat r'));
      [|done]. apply (Hlt j); [lia|done].
Qed.

Lemma lookup_naive_nearest_witness :
  mk_naive (Ptr 0) 3 fresh_mem
    = Val (handle_of naive_build, mem_of naive_build) ∧
  ∃ i r,
    lookup_naive places (handle_of naive_build) (dyadic 41 (-2))
      (dyadic 56 0) (mem_of naive_build)
      = Val (Ptr (Z.of_nat i), mem_of naive_build) ∧
    places !! i = Some r ∧
    (∀ j r', places !! j = Some r' →
             F64.leb (dist_sq (dyadic 41 (-2)) (dyadic 56 0) r)
                     (dist_sq (dyadic 41 (-2)) (dyadic 56 0) r') = true) ∧
    (∀ j r', (j < i)%nat → places !! j = Some r' →
             F64.ltb (dist_sq (dyadic 41 (-2)) (dyadic 56 0) r)
                     (dist_sq (dyadic 41 (-2)) (dyadic 56 0) r') = true) ∧
    (∀ j r', places !! j = Some r' →
             F64.leb (dist_sq (dyadic 41 (-2)) (dyadic 56 0) r')
                     (dist_sq (dyadic 41 (-2)) (dyadic 56 0) r) = true →
             (i ≤ j)%nat).
Proof.
  split; [vm_compute; reflexivity|].
  apply (lookup_naive_nearest places _ _ fresh_mem).
  - discriminate.
  - vm_compute. discriminate.
  - vm_compute. reflexivity.
  - vm_compute. discriminate.
  - apply Forall_forall. repeat constructor.
Defined.

(** C2, as stated, fails: when the longitude of the query is a NaN, every
    squared distance is a NaN, the scanner returns the first record, and
    its squared distance is not less than or equal to that of any other
    record. *)
Lemma lookup_naive_nan_query :
  mk_naive (Ptr 0) 3 fresh_mem
    = Val (handle_of naive_build, mem_of naive_build) ∧
  lookup_naive places (handle_of naive_build) S754_nan (dyadic 56 0)
    (mem_of naive_build) = Val (Ptr 0, mem_of naive_build) ∧
  ¬ ∃ i r,
      lookup_naive places (handle_of naive_build) S754_nan (dyadic 56 0)
        (mem_of naive_build) = Val (Ptr (Z.of_nat i), mem_of naive_build) ∧
      places !! i = Some r ∧
      ∀ j r', j ≠ i → places !! j = Some r' →
              F64.leb (dist_sq S754_nan (dyadic 56 0) r)
                      (dist_sq S754_nan (dyadic 56 0) r') = true.
Proof.
  split; [vm_compute; reflexivity|]. split; [vm_compute; reflexivity|].
  intros (i & r & Hrun & Hr & Hmin).
  assert (Hrun0 : lookup_naive places (handle_of naive_build) S754_nan
                    (dyadic 56 0) (mem_of naive_build)
                  = Val (Ptr 0, mem_of naive_build))
    by (vm_compute; reflexivity).
  rewrite Hrun0 in Hrun. injection Hrun as Hi.
  assert (i = 0%nat) as -> by lia.
  specialize (Hmin 1%nat douglas_road ltac:(lia) eq_refl).
  injection Hr as <-. vm_compute in Hmin. discriminate.
Qed.
End CoordinateScanner.

(** ** Properties of the identifier lookups taken together *)

Module IdLookups.
Import Binsort BinsortSpec BinsortAccess BinsortBuild BinsortLookup
       BinsortIndex SortedIndex Examples.

(** C9.  On a handle built over the record array, the Linear Scanner's
    lookup returns a reference to the first record, in store order, whose
    identifier equals the query, and [NULL] when no record has it (in
    particular when the array is empty). *)
Theorem linear_lookup_first_match recs k m data m' :
  Z.of_nat (length recs) ≤ INT_MAX →
  Linear.build (Ptr 0) (Z.of_nat (length recs)) m = Val (data, m') →
  data ≠ NULL →
  ∃ p, Linear.lookup recs data k m' = Val (p, m') ∧
       match p with
       | Ptr z =>
           ∃ i r, z = Z.of_nat i ∧ recs !! i = Some r ∧
                  record_h.osm_id r = k ∧
                  ∀ j r', (j < i)%nat → recs !! j = Some r' →
                          record_h.osm_id r' ≠ k
       | NULL => ∀ r, r ∈ recs → record_h.osm_id r ≠ k
       end.
Proof.
  intros Hmax Hmk Hdata.
  apply LinearFacts.linear_lookup_spec; [|done].
  by eapply LinearFacts.linear_build_inv.
Qed.

Lemma linear_lookup_first_match_witness :
  Linear.build (Ptr 0) 3 fresh_mem
    = Val (handle_of linear_build, mem_of linear_build) ∧
  ∃ p, Linear.lookup places (handle_of linear_build) 45 (mem_of linear_build)
         = Val (p, mem_of linear_build) ∧
       match p with
       | Ptr z =>
           ∃ i r, z = Z.of_nat i ∧ places !! i = Some r ∧
                  record_h.osm_id r = 45 ∧
                  ∀ j r', (j < i)%nat → places !! j = Some r' →
                          record_h.osm_id r' ≠ 45
       | NULL => ∀ r, r ∈ places → record_h.osm_id r ≠ 45
       end.
Proof.
  split; [vm_compute; reflexivity|].
  apply (linear_lookup_first_match places 45 fresh_mem).
  - vm_compute. discriminate.
  - vm_compute. reflexivity.
  - vm_compute. discriminate.
Defined.

Lemma NoDup_ids_lookup (recs : list record_h.record) i j r r' :
  NoDup (record_h.osm_id <$> recs) →
  recs !! i = Some r → recs !! j = Some r' →
  record_h.osm_id r = record_h.osm_id r' → i = j.
Proof.
  intros Hnd Hi Hj Hid.
  apply (NoDup_lookup _ i j (record_h.osm_id r) Hnd);
    rewrite list_lookup_fmap; [by rewrite Hi | by rewrite Hj, Hid].
Qed.

Lemma first_match_unique recs k p q :
  first_match recs k p → first_match recs k q → p = q.
Proof.
  destruct p as [|z], q as [|z']; simpl; try done.
  - intros Hnone (i & r & _ & Hr & Hid & _).
    destruct (Hnone r); [|done]. apply list_elem_of_lookup. eauto.
  - intros (i & r & _ & Hr & Hid & _) Hnone.
    destruct (Hnone r); [|done]. apply list_elem_of_lookup. eauto.
  - intros (i & r & -> & Hr & Hid & Hfirst) (j & r' & -> & Hr' & Hid' & Hfirst').
    f_equal. destruct (Nat.lt_trichotomy i j) as [Hlt|[->|Hlt]]; [|done|].
    + by destruct (Hfirst' i r Hlt Hr).
    + by destruct (Hfirst j r' Hlt Hr').
Qed.

(** C6.  Over a record array without duplicate identifiers, the Linear
    Scanner, the Compact Index and the Sorted Index give the same answer
    to every query: a reference to the one record with the wanted
    identifier, or [NULL] from all three. *)
Theorem lookups_agree qsort recs k
    (ml ml' : mem Linear.cell) (mc mc' ms ms' : mem cell) dl dc ds :
  qsort_contract qsort compare_index_records →
  Z.of_nat (length recs) ≤ INT_MAX →
  NoDup (record_h.osm_id <$> recs) →
  Linear.build (Ptr 0) (Z.of_nat (length recs)) ml = Val (dl, ml') →
  dl ≠ NULL →
  Compact.build recs (Ptr 0) (Z.of_nat (length recs)) mc = Val (dc, mc') →
  dc ≠ NULL →
  mk_indexed qsort recs (Ptr 0) (Z.of_nat (length recs)) ms = Val (ds, ms') →
  ds ≠ NULL →
  ∃ p, Linear.lookup recs dl k ml' = Val (p, ml') ∧
       Compact.lookup dc k mc' = Val (p, mc') ∧
       lookup_indexed ds k ms' = Val (p, ms') ∧
       ((∃ i r, p = Ptr (Z.of_nat i) ∧ recs !! i = Some r ∧
                record_h.osm_id r = k) ∨
        (p = NULL ∧ ∀ r, r ∈ recs → record_h.osm_id r ≠ k)).
Proof.
  intros Hq Hmax Hnd Hl Hdl Hc Hdc Hs Hds.
  destruct (LinearFacts.linear_lookup_spec recs k ml' dl) as (p & Hp & Hfirst);
    [by eapply LinearFacts.linear_build_inv|done|].
  destruct (CompactFacts.compact_lookup_spec recs k mc' dc) as (p' & Hp' & Hfirst');
    [by eapply CompactFacts.compact_build_inv|done|].
  rewrite <- (first_match_unique _ _ _ _ Hfirst Hfirst') in Hp'.
  pose proof (mk_indexed_inv _ _ _ _ _ Hq Hmax Hs Hds) as Hidx.
  destruct (lookup_indexed_spec ms' ds _ k Hidx) as (ps & Hps & Hfound).
  { by rewrite contract_length, entries_length. }
  pose proof (found_entries recs _ k ps (proj1 (Hq _))
                (Hfound (contract_sorted _ _ Hq))) as Hcases.
  exists p. split; [done|]. split; [done|].
  assert (ps = p) as ->; [|done].
  destruct Hcases as [(i & r & -> & Hr & Hid)|[-> Hnone]];
    destruct p as [|z]; simpl in Hfirst; try done.
  - destruct (Hfirst r); [|done]. apply list_elem_of_lookup. eauto.
  - destruct Hfirst as (j & r' & -> & Hr' & Hid' & _).
    by rewrite (NoDup_ids_lookup recs i j r r' Hnd Hr Hr') by congruence.
  - destruct Hfirst as (j & r' & -> & Hr' & Hid' & _).
    destruct (Hnone r'); [|done]. apply list_elem_of_lookup. eauto.
Qed.

Lemma lookups_agree_witness :
  ∃ p, Linear.lookup places (handle_of linear_build) 1337
         (mem_of linear_build) = Val (p, mem_of linear_build) ∧
       Compact.lookup (handle_of compact_build) 1337 (mem_of compact_build)
         = Val (p, mem_of compact_build) ∧
       lookup_indexed (handle_of sorted_build) 1337 (mem_of sorted_build)
         = Val (p, mem_of sorted_build) ∧
       ((∃ i r, p = Ptr (Z.of_nat i) ∧ places !! i = Some r ∧
                record_h.osm_id r = 1337) ∨
        (p = NULL ∧ ∀ r, r ∈ places → record_h.osm_id r ≠ 1337)).
Proof.
  apply (lookups_agree isort places 1337 fresh_mem _ fresh_mem _ fresh_mem).
  - apply isort_contract.
  - vm_compute. discriminate.
  - apply (bool_decide_unpack _). vm_compute. exact I.
  - vm_compute. reflexivity.
  - vm_compute. discriminate.
  - vm_compute. reflexivity.
  - vm_compute. discriminate.
  - vm_compute. reflexivity.
  - vm_compute. discriminate.
Defined.
End IdLookups.

(** ** The empty record array *)

Module EmptyRecordSet.
Import Binsort BinsortSpec BinsortAccess BinsortBuild BinsortLookup
       BinsortIndex SortedIndex Examples.

Lemma grants_1 {C} (m : mem C) : grants 1 m → ∃ o, oracle m = true :: o.
Proof.
  destruct m as [b o]. intros (o' & -> & _)%grants_cons. eauto.
Qed.

Lemma first_match_nil k p : first_match [] k p → p = NULL.
Proof.
  destruct p as [|z]; [done|]. simpl. intros (i & r & _ & Hr & _).
  by rewrite lookup_nil in Hr.
Qed.

(** C5.  For the empty record array, with an allocator that grants the
    requests, every build returns a non-null handle and every lookup on
    that handle returns [NULL]: the Sorted Index, the Coordinate Scanner,
    the Linear Scanner and the Compact Index in turn. *)
Theorem empty_record_set qsort
    (ms mc : mem cell) (mn : mem CoordNaive.cell) (ml : mem Linear.cell) :
  qsort_contract qsort compare_index_records →
  grants 2 ms → grants 1 mn → grants 1 ml → grants 2 mc →
  (∃ data m', mk_indexed qsort [] (Ptr 0) 0 ms = Val (data, m') ∧
              data ≠ NULL ∧
              ∀ k, lookup_indexed data k m' = Val (NULL, m')) ∧
  (∃ data m', CoordNaive.mk_naive (Ptr 0) 0 mn = Val (data, m') ∧
              data ≠ NULL ∧
              ∀ lon lat,
                CoordNaive.lookup_naive [] data lon lat m' = Val (NULL, m')) ∧
  (∃ data m', Linear.build (Ptr 0) 0 ml = Val (data, m') ∧
              data ≠ NULL ∧
              ∀ k, Linear.lookup [] data k m' = Val (NULL, m')) ∧
  (∃ data m', Compact.build [] (Ptr 0) 0 mc = Val (data, m') ∧
              data ≠ NULL ∧
              ∀ k, Compact.lookup data k m' = Val (NULL, m')).
Proof.
  intros Hq [os Hs]%grants_2 [on Hn]%grants_1 [ol Hl]%grants_1
    [oc Hc]%grants_2.
  assert (Hmax : Z.of_nat (length (@nil record_h.record)) ≤ INT_MAX)
    by (simpl; unfold INT_MAX; lia).
  repeat split.
  - destruct (mk_indexed_builds qsort [] ms os Hs Hmax)
      as (d & a & Hda & _ & _ & Hmk).
    do 2 eexists. split; [exact Hmk|]. split; [done|]. intros k.
    assert (Hidx : is_index
              (Mem (<[a:=index_records
                           (Some <$> qsort compare_index_records (entries []))]>
                      (<[d:=indexed_data (Some (Ptr a)) (Some 0)]> (blocks ms)))
                   os)
              (Ptr d) (qsort compare_index_records (entries []))).
    { exists d, a. split; [done|]. cbn [blocks].
      rewrite lookup_insert_ne, !lookup_insert_eq by done.
      by rewrite contract_length. }
    destruct (lookup_indexed_spec _ _ _ k Hidx) as (p & Hp & Hfound).
    { by rewrite contract_length. }
    destruct (found_entries [] _ k p (proj1 (Hq _))
                (Hfound (contract_sorted _ _ Hq)))
      as [(i & r & _ & Hr & _)|[-> _]]; [|done].
    by rewrite lookup_nil in Hr.
  - do 2 eexists.
    split; [by apply CoordNaiveFacts.mk_naive_builds|]. split; [done|].
    intros lon lat.
    apply CoordNaiveFacts.lookup_naive_empty; [|done].
    cbn [blocks]. apply lookup_insert_eq.
  - do 2 eexists.
    split; [by apply LinearFacts.linear_build_builds|]. split; [done|].
    intros k.
    destruct (LinearFacts.linear_lookup_spec [] k
                (Mem (<[fresh (dom (blocks ml)) :=
                          Linear.linear_data (Some (Ptr 0)) (Some 0)]>
                        (blocks ml)) ol)
                (Ptr (fresh (dom (blocks ml))))) as (p & Hp & Hfirst);
      [|done|].
    + eexists. split; [done|]. cbn [blocks]. apply lookup_insert_eq.
    + by rewrite (first_match_nil _ _ Hfirst) in Hp.
  - destruct (CompactFacts.compact_build_builds [] mc oc Hc Hmax)
      as (data & m' & Hmk & Hidx).
    exists data, m'. split; [done|].
    split; [by destruct Hidx as (? & ? & -> & _)|]. intros k.
    destruct (CompactFacts.compact_lookup_spec [] k m' data Hidx Hmax)
      as (p & Hp & Hfirst).
    by rewrite (first_match_nil _ _ Hfirst) in Hp.
Qed.

Lemma empty_record_set_witness :
  (∃ data m', mk_indexed isort [] (Ptr 0) 0 fresh_mem = Val (data, m') ∧
              data ≠ NULL ∧
              ∀ k, lookup_indexed data k m' = Val (NULL, m')) ∧
  (∃ data m', CoordNaive.mk_naive (Ptr 0) 0 fresh_mem = Val (data, m') ∧
              data ≠ NULL ∧
              ∀ lon lat,
                CoordNaive.lookup_naive [] data lon lat m' = Val (NULL, m')) ∧
  (∃ data m', Linear.build (Ptr 0) 0 fresh_mem = Val (data, m') ∧
              data ≠ NULL ∧
              ∀ k, Linear.lookup [] data k m' = Val (NULL, m')) ∧
  (∃ data m', Compact.build [] (Ptr 0) 0 fresh_mem = Val (data, m') ∧
              data ≠ NULL ∧
              ∀ k, Compact.lookup data k m' = Val (NULL, m')).
Proof.
  apply (empty_record_set isort fresh_mem fresh_mem fresh_mem fresh_mem).
  - apply isort_contract.
  - reflexivity.
  - reflexivity.
  - reflexivity.
  - reflexivity.
Defined.
End EmptyRecordSet.

(** ** The examples of the specification *)

Module SpecExamples.
Import Examples.

(** The sorted entry array of the example store. *)
Example sorted_entries_example :
  BinsortSpec.isort Binsort.compare_index_records
    (BinsortSpec.entries places)
  = [ {| Binsort.osm_id := 7; Binsort.record := Ptr 2 |};
      {| Binsort.osm_id := 45; Binsort.record := Ptr 1 |};
      {| Binsort.osm_id := 1337; Binsort.record := Ptr 0 |} ].
Proof. reflexivity. Qed.

(** lookup(45) finds "Douglas Road", the record at position 1. *)
Example lookup_45_example :
  Binsort.lookup_indexed (handle_of sorted_build) 45 (mem_of sorted_build)
    = Val (Ptr 1, mem_of sorted_build) ∧
  record_h.name <$> places !! 1%nat = Some "Douglas Road".
Proof. split; vm_compute; reflexivity. Qed.

(** lookup(99999) reports not found. *)
Example lookup_99999_example :
  Binsort.lookup_indexed (handle_of sorted_build) 99999 (mem_of sorted_build)
    = Val (NULL, mem_of sorted_build).
Proof. vm_compute. reflexivity. Qed.

(** A coordinate lookup near (10.2, 56.16) finds "Aarhus". *)
Example lookup_near_aarhus_example :
  CoordNaive.lookup_naive places (handle_of naive_build)
    (dyadic 163 (-4)) (dyadic 899 (-4)) (mem_of naive_build)
    = Val (Ptr 2, mem_of naive_build) ∧
  record_h.name <$> places !! 2%nat = Some "Aarhus".
Proof. split; vm_compute; reflexivity. Qed.

(** A refused array request: the handle is released again. *)
Example refused_array_example :
  Binsort.mk_indexed BinsortSpec.isort places (Ptr 0) 3
    (Mem ∅ [true; false]) = Val (NULL, Mem ∅ []).
Proof. vm_compute. reflexivity. Qed.

(** In the presence of a NaN the scanner keeps the first record. *)
Example lookup_nan_example :
  CoordNaive.lookup_naive places (handle_of naive_build)
    S754_nan (dyadic 899 (-4)) (mem_of naive_build)
    = Val (Ptr 0, mem_of naive_build).
Proof. vm_compute. reflexivity. Qed.
End SpecExamples.

(** * Further properties of the Sorted Index *)

Module SortedIndexMore.
Import Binsort BinsortSpec BinsortAccess BinsortBuild BinsortLookup
       BinsortIndex Examples.

(** X1.  [compare_index_records] is a three-way comparison of the
    identifiers: it answers [-1], [0] or [1] according to whether the first
    identifier is smaller than, equal to or greater than the second, reverses
    its sign when its arguments are exchanged, and composes transitively. *)
Theorem compare_index_records_three_way a b c :
  (compare_index_records a b = -1 ↔ osm_id a < osm_id b) ∧
  (compare_index_records a b = 0 ↔ osm_id a = osm_id b) ∧
  (compare_index_records a b = 1 ↔ osm_id a > osm_id b) ∧
  compare_index_records b a = - compare_index_records a b ∧
  (compare_index_records a b ≤ 0 ∧ compare_index_records b c ≤ 0 →
   compare_index_records a c ≤ 0).
Proof.
  unfold compare_index_records.
  destruct (Z.ltb_spec (osm_id a) (osm_id b)),
           (Z.gtb_spec (osm_id a) (osm_id b)),
           (Z.ltb_spec (osm_id b) (osm_id a)),
           (Z.gtb_spec (osm_id b) (osm_id a)),
           (Z.ltb_spec (osm_id b) (osm_id c)),
           (Z.gtb_spec (osm_id b) (osm_id c)),
           (Z.ltb_spec (osm_id a) (osm_id c)),
           (Z.gtb_spec (osm_id a) (osm_id c)); lia.
Qed.

(** X2.  [mk_indexed] on a record array of at most [INT_MAX] records never
    faults.  It returns a handle exactly when the allocator grants both
    requests, and then it has allocated two fresh blocks, the handle and the
    entry array, left every other block of the heap as it was, and consumed
    two answers of the allocator. *)
Theorem mk_indexed_outcome qsort recs m :
  Z.of_nat (length recs) ≤ INT_MAX →
  ∃ data m',
    mk_indexed qsort recs (Ptr 0) (Z.of_nat (length recs)) m = Val (data, m') ∧
    (data ≠ NULL ↔ grants 2 m) ∧
    (data ≠ NULL →
     ∃ d a, data = Ptr d ∧ d ≠ a ∧
            blocks m !! d = None ∧ blocks m !! a = None ∧
            dom (blocks m') = {[d; a]} ∪ dom (blocks m) ∧
            (∀ x, x ≠ d → x ≠ a → blocks m' !! x = blocks m !! x) ∧
            oracle m' = drop 2 (oracle m)).
Proof.
  intros Hmax. destruct (decide (grants 2 m)) as [Hg|Hg].
  - destruct (proj1 (grants_2 m) Hg) as [o Ho].
    destruct (mk_indexed_builds qsort recs m o Ho Hmax)
      as (d & a & Hda & Hd & Ha & Hmk).
    do 2 eexists. split; [exact Hmk|]. split; [done|]. intros _.
    exists d, a. repeat split; try done; cbn [blocks oracle].
    + rewrite !dom_insert_L. apply set_eq. intros x.
      rewrite !elem_of_union, !elem_of_singleton. tauto.
    + intros x Hxd Hxa. by rewrite !lookup_insert_ne.
    + by rewrite Ho.
  - destruct (mk_indexed_fails qsort recs (Ptr 0) (Z.of_nat (length recs)) m)
      as (m' & Hmk & _); [tauto|].
    exists NULL, m'. split; [done|]. split; [|done]. split; [done|tauto].
Qed.

Lemma mk_indexed_outcome_witness :
  ∃ data m',
    mk_indexed isort places (Ptr 0) 3 fresh_mem = Val (data, m') ∧
    (data ≠ NULL ↔ grants 2 (@fresh_mem cell)) ∧
    (data ≠ NULL →
     ∃ d a, data = Ptr d ∧ d ≠ a ∧
            blocks (@fresh_mem cell) !! d = None ∧
            blocks (@fresh_mem cell) !! a = None ∧
            dom (blocks m') = {[d; a]} ∪ dom (blocks (@fresh_mem cell)) ∧
            (∀ x, x ≠ d → x ≠ a →
                  blocks m' !! x = blocks (@fresh_mem cell) !! x) ∧
            oracle m' = drop 2 (oracle (@fresh_mem cell))).
Proof.
  apply (mk_indexed_outcome isort places fresh_mem).
  vm_compute. discriminate.
Defined.

(** Any sequence of queries on a built index answers every query and
    leaves the memory as it is. *)
Lemma lookup_all_answers m data es ks :
  is_index m data es → Z.of_nat (length es) ≤ INT_MAX →
  ∃ ps, lookup_all data ks m = Val (ps, m) ∧ length ps = length ks.
Proof.
  intros Hidx Hmax. induction ks as [|k ks (ps & IH & Hlen)]; simpl.
  - by exists [].
  - destruct (lookup_indexed_spec m data es k Hidx Hmax) as (p & Hp & _).
    rewrite (bind_Val _ _ _ _ _ Hp), (bind_Val _ _ _ _ _ IH).
    exists (p :: ps). split; [done|]. simpl. by rewrite Hlen.
Qed.

(** X3.  Building an index, answering any sequence of queries and
    releasing the index with [free_indexed] returns one answer per query
    and leaves the heap holding exactly the blocks it held before the
    build. *)
Theorem sorted_index_lifecycle qsort recs m ks :
  qsort_contract qsort compare_index_records →
  Z.of_nat (length recs) ≤ INT_MAX →
  grants 2 m →
  ∃ ps,
    (data ← mk_indexed qsort recs (Ptr 0) (Z.of_nat (length recs));
     ps ← lookup_all data ks;
     free_indexed data ;;
     ret ps) m
      = Val (ps, Mem (blocks m) (drop 2 (oracle m))) ∧
    length ps = length ks.
Proof.
  intros Hq Hmax [o Ho]%grants_2.
  destruct (mk_indexed_builds qsort recs m o Ho Hmax)
    as (d & a & Hda & Hd & Ha & Hmk).
  rewrite (bind_Val _ _ _ _ _ Hmk).
  set (m' := Mem _ o).
  assert (Hidx : is_index m' (Ptr d) (qsort compare_index_records (entries recs))).
  { exists d, a. split; [done|]. unfold m'. cbn [blocks].
    rewrite lookup_insert_ne, !lookup_insert_eq by done.
    by rewrite contract_length, entries_length. }
  destruct (lookup_all_answers m' (Ptr d) _ ks Hidx) as (ps & Hps & Hlen).
  { by rewrite contract_length, entries_length. }
  exists ps. split; [|done].
  rewrite (bind_Val _ _ _ _ _ Hps).
  erewrite bind_Val; cycle 1.
  { eapply (free_indexed_releases m' d a); [done| |]; unfold m'; cbn [blocks].
    - rewrite lookup_insert_ne by done. apply lookup_insert_eq.
    - apply lookup_insert_eq. }
  unfold ret, m'. cbn [blocks oracle]. rewrite Ho. simpl. do 3 f_equal.
  apply map_eq. intros x.
  destruct (decide (x = d)) as [->|]; [by rewrite lookup_delete_eq|].
  rewrite lookup_delete_ne by done.
  destruct (decide (x = a)) as [->|]; [by rewrite lookup_delete_eq|].
  by rewrite lookup_delete_ne, !lookup_insert_ne.
Qed.

Lemma sorted_index_lifecycle_witness :
  ∃ ps,
    (data ← mk_indexed isort places (Ptr 0) 3;
     ps ← lookup_all data [45; 99999; 1337];
     free_indexed data ;;
     ret ps) fresh_mem
      = Val (ps, Mem ∅ []) ∧
    length ps = 3%nat.
Proof.
  apply (sorted_index_lifecycle isort places fresh_mem [45; 99999; 1337]).
  - apply isort_contract.
  - vm_compute. discriminate.
  - reflexivity.
Defined.

(** A continuing iteration at least halves the candidate range. *)
Lemma step_of_halves es needle l r l' r' :
  step_of es needle l r = Some (Continue l' r') →
  2 * (r' - l' + 1) ≤ r - l + 1.
Proof.
  unfold step_of. destruct (Z.leb_spec l r) as [Hlr|Hlr]; [|discriminate].
  destruct (es !! _) as [e|]; simpl; [|discriminate].
  rewrite Z.quot_div_nonneg by lia.
  pose proof (Z.div_mod (r - l) 2 ltac:(lia)).
  pose proof (Z.mod_pos_bound (r - l) 2 ltac:(lia)).
  destruct (osm_id e =? needle); [discriminate|].
  destruct (osm_id e <? needle); intros [= <- <-]; lia.
Qed.

(** With a range shorter than [2 ^ f], [f + 1] iterations are enough. *)
Lemma lookup_loop_halving m data es needle (f : nat) : ∀ l r,
  is_index m data es →
  Z.of_nat (length es) ≤ INT_MAX →
  0 ≤ l → r < Z.of_nat (length es) →
  r - l + 1 < 2 ^ Z.of_nat f →
  ∃ p, lookup_loop (S f) data needle l r m = Val (p, m).
Proof.
  induction f as [|f IH]; intros l r Hidx Hmax Hl Hr Hsize;
    destruct (lookup_step_eval m data es needle l r Hidx Hmax Hl Hr)
      as (s & Hs & Hstep).
  - simpl in Hsize. simpl. rewrite (bind_Val _ _ _ _ _ Hstep).
    destruct s as [l' r'|p]; [|by eexists].
    apply step_of_shrinks in Hs. lia.
  - cbn [lookup_loop]. rewrite (bind_Val _ _ _ _ _ Hstep).
    destruct s as [l' r'|p]; [|by eexists].
    pose proof (step_of_halves _ _ _ _ _ _ Hs).
    pose proof (step_of_shrinks _ _ _ _ _ _ Hs).
    apply IH; try done; try lia.
    rewrite Nat2Z.inj_succ, Z.pow_succ_r in Hsize by lia. lia.
Qed.

Lemma lookup_indexed_unfold m data es needle :
  is_index m data es →
  Z.of_nat (length es) ≤ INT_MAX →
  lookup_indexed data needle m =
    lookup_loop (S (length es)) data needle 0 (Z.of_nat (length es) - 1) m.
Proof.
  intros (d & a & -> & Hd & Ha) Hmax. unfold lookup_indexed.
  rewrite (bind_Val _ _ _ _ _ (get_n_Val _ _ _ _ Hd)).
  erewrite bind_Val; [|apply int_sub_Val; unfold INT_MIN, INT_MAX in *; lia].
  by rewrite Nat2Z.id.
Qed.

(** Two budgets that both let the loop return give the same result. *)
Lemma lookup_loop_fuel_agree data needle l r m f1 f2 x1 x2 :
  lookup_loop f1 data needle l r m = Val x1 →
  lookup_loop f2 data needle l r m = Val x2 →
  x1 = x2.
Proof.
  intros H1 H2. destruct (Nat.le_ge_cases f1 f2) as [Hle|Hle].
  - pose proof (lookup_loop_fuel_mono _ _ _ _ _ _ _ _ Hle H1) as H.
    rewrite H2 in H. by injection H.
  - pose proof (lookup_loop_fuel_mono _ _ _ _ _ _ _ _ Hle H2) as H.
    rewrite H1 in H. by injection H.
Qed.

(** X4.  The search on a built index needs a number of iterations that is
    logarithmic in the number of entries: whenever the index holds fewer
    than [2 ^ f] entries, [f + 1] iterations of the loop already give the
    result of [lookup_indexed]; 32 iterations are enough for every index. *)
Theorem lookup_indexed_logarithmic m data es needle :
  is_index m data es →
  Z.of_nat (length es) ≤ INT_MAX →
  ∃ p, lookup_indexed data needle m = Val (p, m) ∧
       (∀ f : nat, Z.of_nat (length es) < 2 ^ Z.of_nat f →
          lookup_loop (S f) data needle 0 (Z.of_nat (length es) - 1) m
            = Val (p, m)) ∧
       lookup_loop 32 data needle 0 (Z.of_nat (length es) - 1) m = Val (p, m).
Proof.
  intros Hidx Hmax.
  destruct (lookup_indexed_spec m data es needle Hidx Hmax) as (p & Hp & _).
  exists p. split; [done|].
  rewrite (lookup_indexed_unfold m data es needle Hidx Hmax) in Hp.
  assert (Hlog : ∀ f : nat, Z.of_nat (length es) < 2 ^ Z.of_nat f →
            lookup_loop (S f) data needle 0 (Z.of_nat (length es) - 1) m
              = Val (p, m)).
  { intros f Hf.
    destruct (lookup_loop_halving m data es needle f 0
                (Z.of_nat (length es) - 1)) as (p' & Hp');
      try done; try lia.
    rewrite Hp'. f_equal. eapply lookup_loop_fuel_agree; eassumption. }
  split; [exact Hlog|].
  apply (Hlog 31%nat). unfold INT_MAX in Hmax. simpl. lia.
Qed.

Lemma lookup_indexed_logarithmic_witness :
  ∃ p, lookup_indexed (handle_of sorted_build) 45 (mem_of sorted_build)
         = Val (p, mem_of sorted_build) ∧
       (∀ f : nat, 3 < 2 ^ Z.of_nat f →
          lookup_loop (S f) (handle_of sorted_build) 45 0 2
            (mem_of sorted_build) = Val (p, mem_of sorted_build)) ∧
       lookup_loop 32 (handle_of sorted_build) 45 0 2 (mem_of sorted_build)
         = Val (p, mem_of sorted_build).
Proof.
  apply (lookup_indexed_logarithmic (mem_of sorted_build)
           (handle_of sorted_build)
           (isort compare_index_records (entries places)) 45).
  - exists 1%positive, 2%positive. vm_compute. auto.
  - vm_compute. discriminate.
Defined.

(** Whatever the order of the entries, the loop returns [NULL] or the
    record reference of an entry with the wanted identifier. *)
Lemma lookup_loop_sound m data es needle fuel : ∀ l r p m',
  is_index m data es →
  Z.of_nat (length es) ≤ INT_MAX →
  0 ≤ l → r < Z.of_nat (length es) →
  lookup_loop fuel data needle l r m = Val (p, m') →
  p = NULL ∨ ∃ j e, es !! j = Some e ∧ osm_id e = needle ∧ p = record e.
Proof.
  induction fuel as [|fuel IH]; intros l r p m' Hidx Hmax Hl Hr Hrun;
    [discriminate|].
  destruct (lookup_step_eval m data es needle l r Hidx Hmax Hl Hr)
    as (s & Hs & Hstep).
  simpl in Hrun. rewrite (bind_Val _ _ _ _ _ Hstep) in Hrun.
  destruct s as [l' r'|q].
  - pose proof (step_of_shrinks _ _ _ _ _ _ Hs).
    apply (IH l' r' p m'); try done; lia.
  - injection Hrun as <- <-. unfold step_of in Hs.
    destruct (l <=? r); [|injection Hs as <-; by left].
    destruct (es !! Z.to_nat _) as [e|] eqn:He; simpl in Hs; [|done].
    destruct (Z.eqb_spec (osm_id e) needle); [|by destruct (_ <? _)].
    injection Hs as <-. right. eauto.
Qed.

(** X5.  [lookup_indexed] never returns a wrong record: on an index whose
    entries are in any order whatsoever it returns and leaves the memory
    alone, and what it returns is [NULL] or the record reference of an
    entry whose identifier is the wanted one. *)
Theorem lookup_indexed_never_wrong m data es needle :
  is_index m data es →
  Z.of_nat (length es) ≤ INT_MAX →
  ∃ p, lookup_indexed data needle m = Val (p, m) ∧
       (p = NULL ∨
        ∃ j e, es !! j = Some e ∧ osm_id e = needle ∧ p = record e).
Proof.
  intros Hidx Hmax.
  destruct (lookup_indexed_spec m data es needle Hidx Hmax) as (p & Hp & _).
  exists p. split; [done|].
  rewrite (lookup_indexed_unfold m data es needle Hidx Hmax) in Hp.
  eapply lookup_loop_sound; try eassumption; lia.
Qed.

Lemma lookup_indexed_never_wrong_witness :
  ∃ p, lookup_indexed (Ptr 1%positive) 7
         (Mem {[ 1%positive := indexed_data (Some (Ptr 2%positive)) (Some 2);
                 2%positive := index_records
                   [Some {| osm_id := 9; record := Ptr 0 |};
                    Some {| osm_id := 7; record := Ptr 1 |}] ]} [])
       = Val (p, Mem {[ 1%positive := indexed_data (Some (Ptr 2%positive)) (Some 2);
                        2%positive := index_records
                          [Some {| osm_id := 9; record := Ptr 0 |};
                           Some {| osm_id := 7; record := Ptr 1 |}] ]} []) ∧
       (p = NULL ∨
        ∃ j e, [ {| osm_id := 9; record := Ptr 0 |};
                 {| osm_id := 7; record := Ptr 1 |} ] !! j = Some e ∧
               osm_id e = 7 ∧ p = record e).
Proof.
  apply (lookup_indexed_never_wrong _ (Ptr 1%positive)
           [ {| osm_id := 9; record := Ptr 0 |};
             {| osm_id := 7; record := Ptr 1 |} ] 7).
  - exists 1%positive, 2%positive. vm_compute. auto.
  - vm_compute. discriminate.
Defined.

(** Entries of one record array with the same identifier are the same
    entry when no identifier occurs twice. *)
Lemma entries_id_inj recs e1 e2 :
  NoDup (record_h.osm_id <$> recs) →
  e1 ∈ entries recs → e2 ∈ entries recs →
  osm_id e1 = osm_id e2 → e1 = e2.
Proof.
  intros Hnd (i & r & Hr & ->)%elem_of_entries
    (j & r' & Hr' & ->)%elem_of_entries Hid. simpl in Hid.
  assert (i = j) as ->.
  { apply (NoDup_lookup _ i j (record_h.osm_id r) Hnd);
      rewrite list_lookup_fmap; [by rewrite Hr | by rewrite Hr', Hid]. }
  congruence.
Qed.

(** A granted build, with the two fresh blocks named. *)
Lemma mk_indexed_builds_at qsort recs m o :
  oracle m = true :: true :: o →
  Z.of_nat (length recs) ≤ INT_MAX →
  let d := fresh (dom (blocks m)) in
  let a := fresh (dom (<[d := indexed_data None None]> (blocks m))) in
  mk_indexed qsort recs (Ptr 0) (Z.of_nat (length recs)) m =
    Val (Ptr d,
         Mem (<[a := index_records
                       (Some <$> qsort compare_index_records (entries recs))]>
                (<[d := indexed_data (Some (Ptr a))
                           (Some (Z.of_nat (length recs)))]> (blocks m)))
             o).
Proof.
  intros Ho Hmax d a.
  set (b1 := <[d := indexed_data None None]> (blocks m)) in *.
  assert (Ha1 : b1 !! a = None) by apply (fresh_block_unused (Mem b1 [])).
  assert (Hda : d ≠ a).
  { intros Heq. unfold b1 in Ha1. rewrite <- Heq in Ha1.
    by rewrite lookup_insert_eq in Ha1. }
  unfold mk_indexed.
  rewrite (bind_Val _ _ _ _ _ (malloc_granted _ _ _ Ho)). fold d b1.
  unfold malloc_irs.
  destruct (Z.ltb_spec (Z.of_nat (length recs)) 0) as [?|_]; [lia|].
  erewrite bind_Val; [|by apply malloc_granted]. cbn [blocks]. fold a.
  rewrite Nat2Z.id.
  erewrite bind_Val; cycle 1.
  { eapply set_irs_Val. cbn [blocks]. rewrite lookup_insert_ne by done.
    unfold b1. by rewrite lookup_insert_eq. }
  cbn [blocks oracle].
  erewrite bind_Val; cycle 1.
  { eapply get_irs_Val. cbn [blocks]. by rewrite lookup_insert_eq. }
  cbv beta iota.
  erewrite bind_Val; cycle 1.
  { eapply (mk_indexed_loop_fills recs d a None _ 0%nat); try done; try lia.
    - cbn [blocks]. by rewrite lookup_insert_eq.
    - cbn [blocks]. rewrite lookup_insert_ne, lookup_insert_eq by done.
      by rewrite take_0, Nat.sub_0_r. }
  cbn [blocks oracle].
  erewrite bind_Val; cycle 1.
  { eapply set_n_Val. cbn [blocks].
    rewrite lookup_insert_ne, lookup_insert_eq by done. done. }
  cbn [blocks oracle].
  erewrite bind_Val; cycle 1.
  { unfold qsort_irs.
    erewrite bind_Val; cycle 1.
    { eapply get_irs_Val. cbn [blocks]. by rewrite lookup_insert_eq. }
    erewrite bind_Val; cycle 1.
    { eapply load_Val. cbn [blocks].
      rewrite lookup_insert_ne, lookup_insert_eq by done. done. }
    cbv beta iota.
    rewrite length_fmap, entries_length, Z.eqb_refl, mapM_id_Some.
    eapply store_Val. cbn [blocks].
    rewrite lookup_insert_ne, lookup_insert_eq by done. done. }
  cbn [blocks oracle]. unfold ret. do 3 f_equal.
  apply map_eq. intros x. unfold b1.
  destruct (decide (x = a)) as [->|]; [by simplify_map_eq|].
  destruct (decide (x = d)) as [->|]; by simplify_map_eq.
Qed.

(** A refused build gives a result in which [qsort] has no part. *)
Lemma mk_indexed_fails_uniform recs rs n m :
  ¬ (grants 2 m ∧ 0 ≤ n) →
  ∃ m', ∀ qsort, mk_indexed qsort recs rs n m = Val (NULL, m').
Proof.
  intros Hfail. destruct m as [b [|[] o]].
  - exists (Mem b []). intros qsort. reflexivity.
  - set (d := fresh (dom b)).
    assert (∃ o', malloc_irs n (Mem (<[d:=indexed_data None None]> b) o)
                  = Val (NULL, Mem (<[d:=indexed_data None None]> b) o'))
      as [o' Hirs].
    { unfold malloc_irs. destruct (Z.ltb_spec n 0) as [Hn|Hn].
      - eexists. reflexivity.
      - destruct o as [|[] o]; try (eexists; reflexivity).
        destruct Hfail. split; [|done]. reflexivity. }
    exists (Mem (delete d (<[d:=indexed_data (Some NULL) None]>
                             (<[d:=indexed_data None None]> b))) o').
    intros qsort. unfold mk_indexed.
    rewrite (bind_Val _ _ _ _ _
               (malloc_granted (Mem b (true :: o)) _ o eq_refl)).
    cbn [blocks]. fold d.
    rewrite (bind_Val _ _ _ _ _ Hirs).
    erewrite bind_Val; cycle 1.
    { eapply set_irs_Val. cbn [blocks]. by rewrite lookup_insert_eq. }
    cbn [blocks oracle].
    erewrite bind_Val; cycle 1.
    { eapply get_irs_Val. cbn [blocks]. by rewrite lookup_insert_eq. }
    cbv beta iota.
    erewrite bind_Val; cycle 1.
    { eapply free_Val. cbn [blocks]. by rewrite lookup_insert_eq. }
    reflexivity.
  - exists (Mem b o). intros qsort. reflexivity.
Qed.

(** Insertion sort of the reversed array: a second instance of [qsort],
    which orders entries with equal identifiers the other way round. *)
Definition isort_rev (cmp : index_record → index_record → Z)
    (l : list index_record) : list index_record :=
  isort cmp (reverse l).

Lemma isort_rev_contract : qsort_contract isort_rev compare_index_records.
Proof.
  intros l. unfold isort_rev.
  destruct (isort_contract (reverse l)) as [Hp Hs].
  split; [by rewrite Hp, reverse_Permutation | done].
Qed.

(** X6.  When no identifier occurs twice in the record array, what
    [mk_indexed] returns and the memory it leaves, the entry array
    included, are the same for every sorting algorithm that honours the
    contract of [qsort]; and the identifiers of the entry array of a built
    index increase strictly. *)
Theorem unique_ids_fix_index qsort1 qsort2 recs m :
  qsort_contract qsort1 compare_index_records →
  qsort_contract qsort2 compare_index_records →
  NoDup (record_h.osm_id <$> recs) →
  Z.of_nat (length recs) ≤ INT_MAX →
  mk_indexed qsort1 recs (Ptr 0) (Z.of_nat (length recs)) m
    = mk_indexed qsort2 recs (Ptr 0) (Z.of_nat (length recs)) m ∧
  ∀ data m',
    mk_indexed qsort1 recs (Ptr 0) (Z.of_nat (length recs)) m
      = Val (data, m') →
    data ≠ NULL →
    ∃ es, is_index m' data es ∧
          ∀ (i j : nat) x y,
            (i < j)%nat → es !! i = Some x → es !! j = Some y →
            osm_id x < osm_id y.
Proof.
  intros H1 H2 Hnd Hmax.
  assert (Hsame : qsort1 compare_index_records (entries recs)
                  = qsort2 compare_index_records (entries recs)).
  { apply (StronglySorted_unique_strong id_le);
      [|by apply contract_sorted..|].
    - intros x1 x2 Hx1 Hx2 Hle Hge. unfold id_le in *.
      rewrite (proj1 (H1 _)) in Hx1. rewrite (proj1 (H2 _)) in Hx2.
      apply (entries_id_inj recs); [done..|lia].
    - by rewrite (proj1 (H1 _)), (proj1 (H2 _)). }
  split.
  - destruct (decide (grants 2 m)) as [Hg|Hg].
    + destruct (proj1 (grants_2 m) Hg) as [o Ho].
      rewrite (mk_indexed_builds_at qsort1 recs m o Ho Hmax).
      rewrite (mk_indexed_builds_at qsort2 recs m o Ho Hmax).
      by rewrite Hsame.
    + destruct (mk_indexed_fails_uniform recs (Ptr 0)
                  (Z.of_nat (length recs)) m) as (m' & Hm'); [tauto|].
      by rewrite !Hm'.
  - intros data m' Hmk Hdata.
    exists (qsort1 compare_index_records (entries recs)).
    split; [by apply (mk_indexed_inv qsort1 recs m)|].
    intros i j x y Hij Hx Hy.
    pose proof (sorted_lookup _ i j x y (contract_sorted _ _ H1)
                  ltac:(lia) Hx Hy) as Hle.
    destruct (decide (osm_id x = osm_id y)) as [Heq|]; [|lia].
    assert (x = y) as ->.
    { apply (entries_id_inj recs); [done| | |done];
        rewrite <- (proj1 (H1 _)); apply list_elem_of_lookup; eauto. }
    assert (NoDup (qsort1 compare_index_records (entries recs))) as Hnd'.
    { rewrite (proj1 (H1 _)). unfold entries.
      apply NoDup_alt. intros a b e.
      rewrite !list_lookup_imap.
      destruct (recs !! a) as [ra|] eqn:Ha; [|done].
      destruct (recs !! b) as [rb|] eqn:Hb; [|done].
      simpl. intros [= <-] [= Hab Hid]. lia. }
    pose proof (NoDup_lookup _ i j y Hnd' Hx Hy). lia.
Qed.

Lemma unique_ids_fix_index_witness :
  mk_indexed isort places (Ptr 0) 3 fresh_mem
    = Val (handle_of sorted_build, mem_of sorted_build) ∧
  mk_indexed isort places (Ptr 0) 3 fresh_mem
    = mk_indexed isort_rev places (Ptr 0) 3 fresh_mem ∧
  ∀ data m',
    mk_indexed isort places (Ptr 0) 3 fresh_mem = Val (data, m') →
    data ≠ NULL →
    ∃ es, is_index m' data es ∧
          ∀ (i j : nat) x y,
            (i < j)%nat → es !! i = Some x → es !! j = Some y →
            osm_id x < osm_id y.
Proof.
  split; [vm_compute; reflexivity|].
  apply (unique_ids_fix_index isort isort_rev places fresh_mem).
  - apply isort_contract.
  - apply isort_rev_contract.
  - apply (bool_decide_unpack _). vm_compute. exact I.
  - vm_compute. discriminate.
Defined.
End SortedIndexMore.

(** * Further properties of the Coordinate Scanner *)

Module CoordinateScannerMore.
Import CoordNaive CoordNaiveSpec CoordNaiveFacts F64Facts F64Rounding
       Examples.

(** A sequence of queries on one handle. *)
Fixpoint lookup_naive_all (recs : list record) (data : ptr addr)
    (qs : list (double * double)) : M cell (list record_ptr) :=
  match qs with
  | [] => ret []
  | (lon, lat) :: qs' =>
      p ← lookup_naive recs data lon lat;
      ps ← lookup_naive_all recs data qs';
      ret (p :: ps)
  end.

(** Among the first [i] records, the record at position [c] has a squared
    distance that is a number, no record whose squared distance is a number
    is nearer, and every such record before it is strictly farther. *)
Definition nearest_number_upto (recs : list record) (lon lat : double)
    (i c : nat) : Prop :=
  ∃ rc, recs !! c = Some rc ∧
    F64.is_nan (dist_sq lon lat rc) = false ∧
    (∀ j r, (j < i)%nat → recs !! j = Some r →
            F64.is_nan (dist_sq lon lat r) = false →
            F64.leb (dist_sq lon lat rc) (dist_sq lon lat r) = true) ∧
    (∀ j r, (j < c)%nat → recs !! j = Some r →
            F64.is_nan (dist_sq lon lat r) = false →
            F64.ltb (dist_sq lon lat rc) (dist_sq lon lat r) = true).

(** X7.  [mk_naive] never faults.  It returns a handle exactly when the
    allocator grants its one request; a refused request leaves the heap as
    it was, and a granted one adds a single fresh block that holds the
    record pointer and the count it was given. *)
Theorem mk_naive_outcome rs n (m : mem cell) :
  ∃ data m',
    mk_naive rs n m = Val (data, m') ∧
    (data ≠ NULL ↔ grants 1 m) ∧
    (data = NULL → blocks m' = blocks m) ∧
    ∀ d, data = Ptr d →
         blocks m !! d = None ∧
         blocks m' = <[d := naive_data (Some rs) (Some n)]> (blocks m) ∧
         oracle m' = drop 1 (oracle m).
Proof.
  destruct (decide (grants 1 m)) as [Hg|Hg].
  - destruct m as [b [|[] o]]; try done.
    do 2 eexists.
    split; [exact (mk_naive_builds rs n (Mem b (true :: o)) o eq_refl)|].
    split; [done|]. split; [done|]. intros d [= <-].
    split; [apply (fresh_block_unused (Mem b []))|done].
  - destruct (mk_naive_fails rs n m Hg) as (m' & Hmk & Hb).
    exists NULL, m'. split; [done|]. split; [tauto|]. split; [done|].
    discriminate.
Qed.

(** On a handle over the whole record array every query is answered and
    the memory is left alone. *)
Lemma lookup_naive_answers recs lon lat (m : mem cell) d :
  blocks m !! d
    = Some (naive_data (Some (Ptr 0)) (Some (Z.of_nat (length recs)))) →
  Z.of_nat (length recs) ≤ INT_MAX →
  ∃ p, lookup_naive recs (Ptr d) lon lat m = Val (p, m).
Proof.
  intros Hd Hmax. destruct (decide (recs = [])) as [Hrecs|Hrecs].
  - exists NULL. by apply lookup_naive_empty.
  - destruct (lookup_naive_nonempty recs lon lat m d Hd Hmax Hrecs)
      as (c & _ & Hrun & _). eauto.
Qed.

Lemma lookup_naive_all_answers recs qs (m : mem cell) d :
  blocks m !! d
    = Some (naive_data (Some (Ptr 0)) (Some (Z.of_nat (length recs)))) →
  Z.of_nat (length recs) ≤ INT_MAX →
  ∃ ps, lookup_naive_all recs (Ptr d) qs m = Val (ps, m) ∧
        length ps = length qs.
Proof.
  intros Hd Hmax. induction qs as [|[lon lat] qs (ps & IH & Hlen)]; simpl.
  - by exists [].
  - destruct (lookup_naive_answers recs lon lat m d Hd Hmax) as (p & Hp).
    rewrite (bind_Val _ _ _ _ _ Hp), (bind_Val _ _ _ _ _ IH).
    exists (p :: ps). split; [done|]. simpl. by rewrite Hlen.
Qed.

(** X8.  Building a scanner with [mk_naive], answering any sequence of
    queries (NaN coordinates included) and releasing it with [free_naive]
    returns one answer per query and leaves the heap holding exactly the
    blocks it held before the build. *)
Theorem coordinate_scanner_lifecycle recs (m : mem cell) qs :
  Z.of_nat (length recs) ≤ INT_MAX →
  grants 1 m →
  ∃ ps,
    (data ← mk_naive (Ptr 0) (Z.of_nat (length recs));
     ps ← lookup_naive_all recs data qs;
     free_naive data ;;
     ret ps) m
      = Val (ps, Mem (blocks m) (drop 1 (oracle m))) ∧
    length ps = length qs.
Proof.
  intros Hmax Hg. destruct m as [b [|[] o]]; try done.
  rewrite (bind_Val _ _ _ _ _
             (mk_naive_builds (Ptr 0) _ (Mem b (true :: o)) o eq_refl)).
  cbn [blocks].
  set (d := fresh (dom b)).
  assert (Hd : b !! d = None) by apply (fresh_block_unused (Mem b [])).
  destruct (lookup_naive_all_answers recs qs
              (Mem (<[d:=naive_data (Some (Ptr 0))
                           (Some (Z.of_nat (length recs)))]> b) o) d)
    as (ps & Hps & Hlen); [apply lookup_insert_eq|done|].
  exists ps. split; [|done].
  rewrite (bind_Val _ _ _ _ _ Hps).
  unfold free_naive.
  erewrite bind_Val; [|eapply free_Val; cbn [blocks]; apply lookup_insert_eq].
  unfold ret. cbn [blocks oracle]. simpl. do 3 f_equal.
  apply map_eq. intros x.
  destruct (decide (x = d)) as [->|].
  - by rewrite lookup_delete_eq.
  - by rewrite lookup_delete_ne, lookup_insert_ne.
Qed.

Lemma coordinate_scanner_lifecycle_witness :
  ∃ ps,
    (data ← mk_naive (Ptr 0) 3;
     ps ← lookup_naive_all places data
            [(dyadic 163 (-4), dyadic 899 (-4)); (S754_nan, dyadic 1 0)];
     free_naive data ;;
     ret ps) fresh_mem
      = Val (ps, Mem ∅ [true]) ∧
    length ps = 2%nat.
Proof.
  apply (coordinate_scanner_lifecycle places fresh_mem
           [(dyadic 163 (-4), dyadic 899 (-4)); (S754_nan, dyadic 1 0)]).
  - vm_compute. discriminate.
  - reflexivity.
Defined.

(** *** The squared distance *)

Lemma is_nan_mul_self x : F64.is_nan (F64.mul x x) = F64.is_nan x.
Proof.
  destruct (F64.is_nan x) eqn:Hx.
  - by destruct x.
  - pose proof (mul_self_pos x Hx). by destruct (F64.mul x x) as [[]|[]| |[] ? ?].
Qed.

Lemma add_pos_pos x y :
  F64.is_pos x = true → F64.is_pos y = true → F64.is_pos (F64.add x y) = true.
Proof.
  unfold F64.add, SFadd.
  destruct x as [[]|[]| |[] mx ex], y as [[]|[]| |[] my ey]; try done.
  intros _ _. unfold cond_Zopp.
  destruct (shl_align mx ex (Z.min ex ey)) as [mx' ex'].
  destruct (shl_align my ey (Z.min ex ey)) as [my' ey']. simpl fst.
  change (Z.pos mx' + Z.pos my') with (Z.pos (mx' + my')).
  unfold binary_normalize, binary_round.
  destruct (shl_align _ _ _) as [mz ez].
  pose proof (binary_round_aux_cases false (Z.pos mz) ez loc_Exact) as H.
  destruct (binary_round_aux _ _ _ _ _ _) as [s|s| |s ? ?];
    try (by destruct H); by rewrite H.
Qed.

Lemma leb_zero_pos x :
  F64.is_pos x = true → F64.leb (S754_zero false) x = true.
Proof. by destruct x as [[]|[]| |[] ? ?]. Qed.

Lemma ltb_pos_zero x s :
  F64.is_pos x = true → F64.ltb x (S754_zero s) = false.
Proof. by destruct x as [[]|[]| |[] ? ?]. Qed.

Lemma ltb_not_nan x y :
  F64.ltb x y = true → F64.is_nan x = false ∧ F64.is_nan y = false.
Proof.
  unfold F64.ltb, SFltb.
  destruct x as [[]|[]| |[] ? ?], y as [[]|[]| |[] ? ?]; by simpl.
Qed.

Lemma ltb_nan_r x : F64.ltb x S754_nan = false.
Proof. by destruct x as [[]|[]| |[] ? ?]. Qed.

Lemma sub_self x :
  F64.is_finite x = true → F64.sub x x = S754_zero false.
Proof.
  unfold F64.sub, SFsub. destruct x as [[]|[]| |s m e]; try done.
  intros _. by rewrite Z.sub_diag.
Qed.

Lemma dist_sq_pos lon lat (r : record) :
  F64.is_nan (dist_sq lon lat r) = false →
  F64.is_pos (dist_sq lon lat r) = true.
Proof.
  unfold dist_sq.
  set (dx := F64.sub (record_h.lon r) lon).
  set (dy := F64.sub (record_h.lat r) lat).
  intros Hn.
  assert (F64.is_nan dx = false) as Hx.
  { destruct dx; try done. }
  assert (F64.is_nan dy = false) as Hy.
  { destruct dy; try done. simpl in Hn. by destruct (F64.mul dx dx). }
  apply add_pos_pos; by apply mul_self_pos.
Qed.

(** X9.  The squared distance that [lookup_naive] computes for a record is
    a NaN exactly when one of the two coordinate differences is a NaN;
    otherwise its sign bit is clear, so it is never below zero. *)
Theorem dist_sq_nan_or_nonneg lon lat (r : record) :
  F64.is_nan (dist_sq lon lat r)
    = F64.is_nan (F64.sub (record_h.lon r) lon)
      || F64.is_nan (F64.sub (record_h.lat r) lat) ∧
  (F64.is_nan (dist_sq lon lat r) = false →
   F64.is_pos (dist_sq lon lat r) = true ∧
   F64.leb (S754_zero false) (dist_sq lon lat r) = true ∧
   F64.ltb (dist_sq lon lat r) (S754_zero false) = false).
Proof.
  unfold dist_sq.
  set (dx := F64.sub (record_h.lon r) lon).
  set (dy := F64.sub (record_h.lat r) lat).
  assert (Hnan : F64.is_nan (F64.add (F64.mul dx dx) (F64.mul dy dy))
                 = F64.is_nan dx || F64.is_nan dy).
  { destruct (F64.is_nan dx) eqn:Hx.
    - by destruct dx.
    - destruct (F64.is_nan dy) eqn:Hy.
      + destruct dy; try done. simpl. by destruct (F64.mul dx dx).
      + simpl. apply add_pos_not_nan; by apply mul_self_pos. }
  split; [exact Hnan|]. rewrite Hnan. intros [Hx Hy]%orb_false_elim.
  assert (F64.is_pos (F64.add (F64.mul dx dx) (F64.mul dy dy)) = true) as Hpos
    by (apply add_pos_pos; by apply mul_self_pos).
  split; [done|]. split; [by apply leb_zero_pos | by apply ltb_pos_zero].
Qed.

(** *** The scan in the presence of NaNs *)

Section ScanWithNan.
Variable recs : list record.
Variables lon lat : double.
Variable m : mem cell.
Variable d : addr.
Hypothesis Hd :
  blocks m !! d
    = Some (naive_data (Some (Ptr 0)) (Some (Z.of_nat (length recs)))).
Hypothesis Hmax : Z.of_nat (length recs) ≤ INT_MAX.

Local Abbreviation dist := (dist_sq lon lat).

Lemma lookup_naive_loop_nan_aware fuel : ∀ (i c : nat) rc,
  (c < i ≤ length recs)%nat →
  recs !! c = Some rc →
  (length recs - i < fuel)%nat →
  ∃ c', (c' < length recs)%nat ∧
    lookup_naive_loop recs fuel (Ptr d) lon lat (Ptr (Z.of_nat c))
      (dist rc) (Z.of_nat i) m = Val (Ptr (Z.of_nat c'), m) ∧
    (F64.is_nan (dist rc) = true → c' = c) ∧
    (nearest_number_upto recs lon lat i c →
     nearest_number_upto recs lon lat (length recs) c').
Proof.
  induction fuel as [|fuel IH]; intros i c rc Hi Hc Hfuel; [lia|].
  simpl. rewrite (bind_Val _ _ _ _ _ (naive_get_n_Val _ _ _ _ Hd)).
  destruct (Z.ltb_spec (Z.of_nat i) (Z.of_nat (length recs))) as [Hlt|Hge].
  - destruct (lookup_lt_is_Some_2 recs i) as [r Hr]; [lia|].
    rewrite (bind_Val _ _ _ _ _ (naive_get_rs_Val _ _ _ _ Hd)).
    rewrite (bind_Val _ _ _ _ _ (ptr_add_Val _ _ _)), Z.add_0_l.
    erewrite bind_Val; [|apply deref_Val; [lia|by rewrite Nat2Z.id]].
    change (F64.add _ _) with (dist r).
    destruct (F64.ltb (dist r) (dist rc)) eqn:Hcmp.
    + erewrite bind_Val;
        [|apply int_add_Val; unfold INT_MIN, INT_MAX in *; lia].
      replace (Z.of_nat i + 1) with (Z.of_nat (S i)) by lia.
      destruct (ltb_not_nan _ _ Hcmp) as [Hnr Hnrc].
      destruct (IH (S i) i r) as (c' & Hc' & Hrun & _ & Hinv);
        [lia|done|lia|].
      exists c'. split; [done|]. split; [done|].
      split; [intros Hn; congruence|].
      intros (rc0 & Hrc0 & _ & Hle & Hlt'). apply Hinv.
      assert (rc0 = rc) as -> by congruence.
      exists r. split; [done|]. split; [done|]. split.
      * intros j r' Hj Hr' Hnr'. destruct (decide (j = i)) as [->|].
        -- assert (r' = r) as -> by congruence. by apply leb_refl.
        -- apply ltb_leb. eapply ltb_leb_trans; [done|].
           apply (Hle j); [lia|done|done].
      * intros j r' Hj Hr' Hnr'. eapply ltb_leb_trans; [done|].
        apply (Hle j); [lia|done|done].
    + erewrite bind_Val;
        [|apply int_add_Val; unfold INT_MIN, INT_MAX in *; lia].
      replace (Z.of_nat i + 1) with (Z.of_nat (S i)) by lia.
      destruct (IH (S i) c rc) as (c' & Hc' & Hrun & Hkeep & Hinv);
        [lia|done|lia|].
      exists c'. split; [done|]. split; [done|]. split; [done|].
      intros (rc0 & Hrc0 & Hnrc & Hle & Hlt'). apply Hinv.
      assert (rc0 = rc) as -> by congruence.
      exists rc. split; [done|]. split; [done|]. split; [|done].
      intros j r' Hj Hr' Hnr'. destruct (decide (j = i)) as [->|].
      * assert (r' = r) as -> by congruence. by apply ltb_false_leb.
      * apply (Hle j); [lia|done|done].
  - assert (i = length recs) as -> by lia.
    exists c. split; [lia|]. split; [done|]. auto.
Qed.

Lemma lookup_naive_nan_aware :
  recs ≠ [] →
  ∃ c r0, (c < length recs)%nat ∧ recs !! 0%nat = Some r0 ∧
    lookup_naive recs (Ptr d) lon lat m = Val (Ptr (Z.of_nat c), m) ∧
    (F64.is_nan (dist r0) = true → c = 0%nat) ∧
    (F64.is_nan (dist r0) = false →
     nearest_number_upto recs lon lat (length recs) c).
Proof.
  intros Hrecs. unfold lookup_naive.
  rewrite (bind_Val _ _ _ _ _ (naive_get_n_Val _ _ _ _ Hd)).
  assert (Hlen : (0 < length recs)%nat).
  { destruct (decide (length recs = 0%nat)) as [H0|]; [|lia].
    by apply nil_length_inv in H0. }
  destruct (lookup_lt_is_Some_2 recs 0 Hlen) as [r0 Hr0].
  destruct (Z.eqb_spec (Z.of_nat (length recs)) 0) as [?|_]; [lia|].
  rewrite (bind_Val _ _ _ _ _ (naive_get_rs_Val _ _ _ _ Hd)).
  rewrite (bind_Val _ _ _ _ _ (ptr_add_Val _ _ _)). simpl Z.add.
  erewrite bind_Val; [|by apply deref_Val].
  change (F64.add _ _) with (dist r0). rewrite Nat2Z.id.
  destruct (lookup_naive_loop_nan_aware (S (length recs)) 1 0 r0)
    as (c & Hc & Hrun & Hkeep & Hinv); [lia|done|lia|].
  exists c, r0. repeat split; try done.
  intros Hn0. apply Hinv. exists r0. repeat split; try done.
  - intros j r Hj Hr _. assert (j = 0%nat) as -> by lia.
    assert (r = r0) as -> by congruence. by apply leb_refl.
  - intros j r Hj. lia.
Qed.
End ScanWithNan.

(** X10.  What [lookup_naive] does when squared distances may be NaNs.  If
    the squared distance of the first record is a NaN, the first record is
    returned.  Otherwise the returned record's squared distance is a
    number, it is less than or equal to that of every record whose squared
    distance is a number, and strictly less than that of every such record
    before it: records with a NaN distance are passed over. *)
Theorem lookup_naive_passes_over_nan recs lon lat (m : mem cell) data m' :
  recs ≠ [] →
  Z.of_nat (length recs) ≤ INT_MAX →
  mk_naive (Ptr 0) (Z.of_nat (length recs)) m = Val (data, m') →
  data ≠ NULL →
  ∃ (i : nat) r0 r,
    lookup_naive recs data lon lat m' = Val (Ptr (Z.of_nat i), m') ∧
    recs !! 0%nat = Some r0 ∧ recs !! i = Some r ∧
    (F64.is_nan (dist_sq lon lat r0) = true → i = 0%nat) ∧
    (F64.is_nan (dist_sq lon lat r0) = false →
     F64.is_nan (dist_sq lon lat r) = false ∧
     (∀ j r', recs !! j = Some r' →
              F64.is_nan (dist_sq lon lat r') = false →
              F64.leb (dist_sq lon lat r) (dist_sq lon lat r') = true) ∧
     (∀ j r', (j < i)%nat → recs !! j = Some r' →
              F64.is_nan (dist_sq lon lat r') = false →
              F64.ltb (dist_sq lon lat r) (dist_sq lon lat r') = true)).
Proof.
  intros Hrecs Hmax Hmk Hdata.
  destruct (mk_naive_inv _ _ _ _ Hmk Hdata) as (d & -> & Hd).
  destruct (lookup_naive_nan_aware recs lon lat m' d Hd Hmax Hrecs)
    as (c & r0 & Hc & Hr0 & Hrun & Hkeep & Hnear).
  destruct (lookup_lt_is_Some_2 recs c Hc) as [r Hr].
  exists c, r0, r.
  split; [done|]. split; [done|]. split; [done|]. split; [done|].
  intros Hn0. destruct (Hnear Hn0) as (rc & Hrc & Hn & Hle & Hlt).
  assert (rc = r) as -> by congruence.
  split; [done|]. split.
  - intros j r' Hr' Hn'.
    apply (Hle j); [by apply lookup_lt_Some in Hr'|done|done].
  - intros j r' Hj Hr' Hn'. by apply (Hlt j).
Qed.

Lemma lookup_naive_passes_over_nan_witness :
  ∃ (i : nat) r0 r,
    lookup_naive places (handle_of naive_build) S754_nan (dyadic 1 0)
      (mem_of naive_build) = Val (Ptr (Z.of_nat i), mem_of naive_build) ∧
    places !! 0%nat = Some r0 ∧ places !! i = Some r ∧
    (F64.is_nan (dist_sq S754_nan (dyadic 1 0) r0) = true → i = 0%nat) ∧
    (F64.is_nan (dist_sq S754_nan (dyadic 1 0) r0) = false →
     F64.is_nan (dist_sq S754_nan (dyadic 1 0) r) = false ∧
     (∀ j r', places !! j = Some r' →
              F64.is_nan (dist_sq S754_nan (dyadic 1 0) r') = false →
              F64.leb (dist_sq S754_nan (dyadic 1 0) r)
                      (dist_sq S754_nan (dyadic 1 0) r') = true) ∧
     (∀ j r', (j < i)%nat → places !! j = Some r' →
              F64.is_nan (dist_sq S754_nan (dyadic 1 0) r') = false →
              F64.ltb (dist_sq S754_nan (dyadic 1 0) r)
                      (dist_sq S754_nan (dyadic 1 0) r') = true)).
Proof.
  apply (lookup_naive_passes_over_nan places _ _ fresh_mem).
  - discriminate.
  - vm_compute. discriminate.
  - vm_compute. reflexivity.
  - vm_compute. discriminate.
Defined.

Lemma pos_leb_zero_is_zero x :
  F64.is_pos x = true → F64.leb x (S754_zero false) = true →
  x = S754_zero false.
Proof. by destruct x as [[]|[]| |[] ? ?]. Qed.

(** X11.  A query at the very coordinates of a record.  When all
    coordinates of the record array are finite and the query point is the
    position of the record at index [j], [lookup_naive] returns a record
    at index [j] or before whose squared distance to the query is zero. *)
Theorem lookup_naive_exact_hit recs (j : nat) rj (m : mem cell) data m' :
  Z.of_nat (length recs) ≤ INT_MAX →
  mk_naive (Ptr 0) (Z.of_nat (length recs)) m = Val (data, m') →
  data ≠ NULL →
  (∀ r, r ∈ recs → F64.is_finite (record_h.lon r) = true ∧
                   F64.is_finite (record_h.lat r) = true) →
  recs !! j = Some rj →
  ∃ (i : nat) r,
    lookup_naive recs data (record_h.lon rj) (record_h.lat rj) m'
      = Val (Ptr (Z.of_nat i), m') ∧
    recs !! i = Some r ∧ (i ≤ j)%nat ∧
    dist_sq (record_h.lon rj) (record_h.lat rj) r = S754_zero false.
Proof.
  intros Hmax Hmk Hdata Hfin Hj.
  destruct (mk_naive_inv _ _ _ _ Hmk Hdata) as (d & -> & Hd).
  assert (Hrecs : recs ≠ []) by (intros ->; by rewrite lookup_nil in Hj).
  assert (Hjin : rj ∈ recs) by (apply list_elem_of_lookup; eauto).
  destruct (Hfin rj Hjin) as [Hfx Hfy].
  assert (Hnan : ∀ r, r ∈ recs →
            F64.is_nan (dist_sq (record_h.lon rj) (record_h.lat rj) r) = false).
  { intros r Hr. destruct (Hfin r Hr). by apply dist_sq_finite. }
  assert (Hzero : dist_sq (record_h.lon rj) (record_h.lat rj) rj
                  = S754_zero false).
  { unfold dist_sq. by rewrite !sub_self. }
  destruct (lookup_naive_nonempty recs (record_h.lon rj) (record_h.lat rj)
              m' d Hd Hmax Hrecs)
    as (c & Hc & Hrun & Hnear).
  destruct (Hnear Hnan) as (rc & Hrc & Hle & Hlt).
  assert (Hpos : F64.is_pos (dist_sq (record_h.lon rj) (record_h.lat rj) rc)
                 = true).
  { apply dist_sq_pos, Hnan, list_elem_of_lookup. eauto. }
  exists c, rc. split; [done|]. split; [done|]. split.
  - destruct (decide (c ≤ j)%nat); [done|].
    pose proof (Hlt j rj ltac:(lia) Hj) as Hcontra.
    rewrite Hzero, ltb_pos_zero in Hcontra; done.
  - apply pos_leb_zero_is_zero; [done|]. rewrite <- Hzero.
    apply (Hle j); [by apply lookup_lt_Some in Hj|done].
Qed.

Lemma lookup_naive_exact_hit_witness :
  ∃ (i : nat) r,
    lookup_naive places (handle_of naive_build) (record_h.lon aarhus)
      (record_h.lat aarhus) (mem_of naive_build)
      = Val (Ptr (Z.of_nat i), mem_of naive_build) ∧
    places !! i = Some r ∧ (i ≤ 2)%nat ∧
    dist_sq (record_h.lon aarhus) (record_h.lat aarhus) r = S754_zero false.
Proof.
  apply (lookup_naive_exact_hit places 2 aarhus fresh_mem).
  - vm_compute. discriminate.
  - vm_compute. reflexivity.
  - vm_compute. discriminate.
  - apply Forall_forall. repeat constructor.
  - reflexivity.
Defined.
End CoordinateScannerMore.

(** * Round trips and the one-record array *)

Module RoundTrips.
Import Binsort BinsortSpec BinsortAccess BinsortBuild BinsortLookup
       BinsortIndex Examples.

(** X12.  Looking up the identifier of a stored record.  When no
    identifier occurs twice in the record array, [lookup_indexed] on the
    index that [mk_indexed] built, asked for the identifier of the record
    at position [i], returns the reference to that very record. *)
Theorem lookup_indexed_round_trip qsort recs m data m' (i : nat) r :
  qsort_contract qsort compare_index_records →
  Z.of_nat (length recs) ≤ INT_MAX →
  NoDup (record_h.osm_id <$> recs) →
  mk_indexed qsort recs (Ptr 0) (Z.of_nat (length recs)) m = Val (data, m') →
  data ≠ NULL →
  recs !! i = Some r →
  lookup_indexed data (record_h.osm_id r) m' = Val (Ptr (Z.of_nat i), m').
Proof.
  intros Hq Hmax Hnd Hmk Hdata Hr.
  pose proof (mk_indexed_inv _ _ _ _ _ Hq Hmax Hmk Hdata) as Hidx.
  destruct (lookup_indexed_spec m' data _ (record_h.osm_id r) Hidx)
    as (p & Hp & Hfound).
  { by rewrite contract_length, entries_length. }
  rewrite Hp. do 2 f_equal.
  destruct (SortedIndex.found_entries recs _ _ p (proj1 (Hq _))
              (Hfound (contract_sorted _ _ Hq)))
    as [(j & r' & -> & Hr' & Hid)|[-> Hnone]].
  - by rewrite (IdLookups.NoDup_ids_lookup recs j i r' r Hnd Hr' Hr Hid).
  - destruct (Hnone r); [|done]. apply list_elem_of_lookup. eauto.
Qed.

Lemma lookup_indexed_round_trip_witness :
  lookup_indexed (handle_of sorted_build) (record_h.osm_id douglas_road)
    (mem_of sorted_build) = Val (Ptr 1, mem_of sorted_build).
Proof.
  apply (lookup_indexed_round_trip isort places fresh_mem _ _ 1 douglas_road).
  - apply isort_contract.
  - vm_compute. discriminate.
  - apply (bool_decide_unpack _). vm_compute. exact I.
  - vm_compute. reflexivity.
  - vm_compute. discriminate.
  - reflexivity.
Defined.

(** X13.  The one-record array.  [lookup_naive] returns the sole record
    for every query point, NaN coordinates included, and [lookup_indexed]
    returns it exactly for its own identifier and [NULL] for every other
    one. *)
Theorem single_record_lookups qsort (r : record_h.record) lon lat k
    (mn mn' : mem CoordNaive.cell) (ms ms' : mem cell) dn ds :
  qsort_contract qsort compare_index_records →
  CoordNaive.mk_naive (Ptr 0) 1 mn = Val (dn, mn') → dn ≠ NULL →
  mk_indexed qsort [r] (Ptr 0) 1 ms = Val (ds, ms') → ds ≠ NULL →
  CoordNaive.lookup_naive [r] dn lon lat mn' = Val (Ptr 0, mn') ∧
  lookup_indexed ds k ms'
    = Val (if k =? record_h.osm_id r then Ptr 0 else NULL, ms').
Proof.
  intros Hq Hn Hdn Hs Hds.
  assert (Hmax : Z.of_nat (length [r]) ≤ INT_MAX)
    by (simpl; unfold INT_MAX; lia).
  split.
  - destruct (CoordNaiveFacts.mk_naive_inv _ _ _ _ Hn Hdn) as (d & -> & Hd).
    destruct (CoordNaiveFacts.lookup_naive_nonempty [r] lon lat mn' d Hd Hmax)
      as (c & Hc & Hrun & _); [done|].
    simpl in Hc. by replace c with 0%nat in Hrun by lia.
  - pose proof (mk_indexed_inv qsort [r] ms ds ms' Hq Hmax Hs Hds) as Hidx.
    destruct (lookup_indexed_spec ms' ds _ k Hidx) as (p & Hp & Hfound).
    { by rewrite contract_length. }
    rewrite Hp. do 2 f_equal.
    destruct (SortedIndex.found_entries [r] _ _ p (proj1 (Hq _))
                (Hfound (contract_sorted _ _ Hq)))
      as [(j & r' & -> & Hr' & Hid)|[-> Hnone]].
    + destruct j as [|j]; [|simpl in Hr'; by rewrite lookup_nil in Hr'].
      injection Hr' as <-. rewrite <- Hid. by rewrite Z.eqb_refl.
    + destruct (Z.eqb_spec k (record_h.osm_id r)) as [->|]; [|done].
      destruct (Hnone r); [|done]. apply list_elem_of_here.
Qed.

Lemma single_record_lookups_witness :
  CoordNaive.lookup_naive [aarhus]
    (handle_of (CoordNaive.mk_naive (Ptr 0) 1 fresh_mem)) S754_nan S754_nan
    (mem_of (CoordNaive.mk_naive (Ptr 0) 1 fresh_mem))
    = Val (Ptr 0, mem_of (CoordNaive.mk_naive (Ptr 0) 1 fresh_mem)) ∧
  lookup_indexed (handle_of (mk_indexed isort [aarhus] (Ptr 0) 1 fresh_mem)) 8
    (mem_of (mk_indexed isort [aarhus] (Ptr 0) 1 fresh_mem))
    = Val (if 8 =? record_h.osm_id aarhus then Ptr 0 else NULL,
           mem_of (mk_indexed isort [aarhus] (Ptr 0) 1 fresh_mem)).
Proof.
  apply (single_record_lookups isort aarhus S754_nan S754_nan 8
           fresh_mem _ fresh_mem).
  - apply isort_contract.
  - vm_compute. reflexivity.
  - vm_compute. discriminate.
  - vm_compute. reflexivity.
  - vm_compute. discriminate.
Defined.
End RoundTrips.
